(** * InnerMCPClient: the subprocess-backed JSON-RPC client

    A shallow embedding of [src/proxy_mcp/mcp_client.py].  The attributes of
    the [InnerMCPClient] object, the [Future] objects it hands out, the
    subprocesses it spawns and the threads that run its methods form one
    [state]; every statement of the class that touches shared data is one
    transition of [step].  What the code cannot decide on its own (which
    thread runs next, what the subprocess prints, when it exits, when a
    deadline elapses, whether [Popen] succeeds) is chosen by the [label] of
    the transition.

    Granularity.  A transition is one statement: the threads interleave
    between statements, not inside one.  The loop of l.83-85 is taken as
    one statement, and so is what the reader does with one line once it
    has read it (l.104-122): once the reader has popped a waiter the future
    is in no table any more, and a loop that is already running over the
    table is not interleaved with the reader.  Time is not measured: a
    deadline may elapse whenever a caller waits for a future that is not
    finished. *)

From stdpp Require Import gmap strings list sorting.
From Stdlib Require Import ZArith Lia.
From Stdlib Require Import Floats.SpecFloat.

Set Warnings "-register-all,-clear-no-such-hyp".
Local Open Scope Z_scope.

(** ** JSON values, as [json.loads] returns them *)

(** A float is kept as its sign, mantissa and exponent, so that the value of
    an integral float is exact. *)
Inductive json :=
| JNull
| JBool (b : bool)
| JInt (n : Z)
| JFloat (f : spec_float)
| JStr (s : string)
| JArr (xs : list json)
| JObj (members : list (string * json)).

(** [d.get(k)] on the dict built from the members of an object: a later
    member with the same name replaces an earlier one. *)
Fixpoint dict_get (k : string) (d : list (string * json)) : option json :=
  match d with
  | [] => None
  | (k', v) :: d' =>
      match dict_get k d' with
      | Some w => Some w
      | None => if decide (k = k') then Some v else None
      end
  end.

(** [k in d] *)
Definition dict_has (k : string) (d : list (string * json)) : bool :=
  match dict_get k d with Some _ => true | None => false end.

(** The integer a float is equal to, when there is one. *)
Definition float_int (f : spec_float) : option Z :=
  match f with
  | S754_zero _ => Some 0
  | S754_finite sg m e =>
      let mag :=
        if 0 <=? e then Some (Z.pos m * 2 ^ e)
        else if Z.pos m mod 2 ^ (- e) =? 0 then Some (Z.pos m / 2 ^ (- e))
        else None in
      (fun z => if sg then - z else z) <$> mag
  | _ => None
  end.

(** How a value behaves as a key of [_pending_requests], whose keys are the
    integers handed out by [_get_id]: Python hashes and compares [True],
    [1] and [1.0] alike; a string or a non-integral float is hashable but
    equal to no integer; a list or a dict cannot be hashed. *)
Inductive pykey :=
| KInt (k : Z)
| KOther
| KUnhashable.

Definition py_key (v : json) : pykey :=
  match v with
  | JNull => KOther
  | JBool b => KInt (if b then 1 else 0)
  | JInt n => KInt n
  | JFloat f => match float_int f with Some z => KInt z | None => KOther end
  | JStr _ => KOther
  | JArr _ | JObj _ => KUnhashable
  end.

(** ** Exceptions, results and futures *)

Inductive exn :=
| TimeoutError (method : string)   (* TimeoutError(f"Request {method} timed out") *)
| ServerRestarted                  (* RuntimeError("Server restarted") *)
| InnerMCPError (payload : json)   (* RuntimeError(f"Inner MCP error: {resp['error']}") *)
| BrokenPipe                       (* OSError of a flush into a dead subprocess *)
| SpawnError.                      (* OSError of Popen *)

Inductive outcome :=
| Returned (v : json)
| Raised (e : exn).

(** A [concurrent.futures.Future]: pending, or finished by [set_result] or
    [set_exception]. *)
Inductive future :=
| Pending
| Finished (o : outcome).

Definition done (f : future) : bool :=
  match f with Pending => false | Finished _ => true end.

(** ** Subprocesses *)

(** A line of the subprocess's standard output: bytes that are not UTF-8,
    for which [readline] raises UnicodeDecodeError; text for which
    [json.loads] raises JSONDecodeError; or text that [json.loads] decodes
    to a value. *)
Inductive line :=
| Undecodable
| Invalid (raw : string)
| Parsed (v : json).

(** One [Popen] object.  [stdin_buffer] holds what [stdin.write] has
    accepted and [stdin.flush] has not yet delivered; [stdin] is what the
    subprocess has received, one request per line; [stdout] the lines it
    has printed and the reader has not read yet. *)
Record process := Process {
  alive : bool;
  stdin_buffer : list json;
  stdin : list json;
  stdout : list line;
}.

Definition fresh_process : process := Process true [] [] [].

(** ** Threads *)

Inductive call_site :=
| FromInitialize   (* _send_request called by _initialize, l.135 *)
| FromCaller.      (* called by call_tool or directly by a user of the class *)

Record call := Call {
  method : string;
  params : json;
  timeout : option Z;
  site : call_site;
}.

(** The handshake request of [_initialize], l.135-139. *)
Definition initialize_call : call :=
  Call "initialize"
       (JObj [("protocolVersion", JStr "2024-11-05");
              ("capabilities", JObj []);
              ("clientInfo", JObj [("name", JStr "proxy-client"); ("version", JStr "1.0")])])
       (Some 60) FromInitialize.

(** [call_tool], l.209-216. *)
Definition call_tool (tool_name : string) (args : json) (timeout : option Z) : call :=
  Call "tools/call" (JObj [("name", JStr tool_name); ("arguments", args)]) timeout FromCaller.

(** The request object of l.178-183. *)
Definition request (c : call) (req_id : Z) : json :=
  JObj [("jsonrpc", JStr "2.0"); ("id", JInt req_id);
        ("method", JStr (method c)); ("params", params c)].

(** The notification of l.142-146. *)
Definition initialized_notification : json :=
  JObj [("jsonrpc", JStr "2.0"); ("method", JStr "notifications/initialized");
        ("params", JObj [])].

(** Where a thread is.  The constructors follow the statements of the
    methods; locals that are live at a point are its arguments
    ([i] is [req_id], [h] the address of [future]). *)
Inductive pc :=
(* _send_request *)
| SPoll (c : call)                      (* l.170: if self.proc.poll() is not None *)
| GAcquire (c : call)                   (* l.158: with self._write_lock *)
| GRead (c : call)                      (* l.159: i = self._next_id *)
| GIncr (c : call) (i : Z)              (* l.160: self._next_id += 1 *)
| GReturn (c : call) (i : Z)            (* l.161: return i, leaving the with *)
| SRegister (c : call) (i : Z)          (* l.175-176 *)
| SAcquire (c : call) (i : Z) (h : nat) (* l.186 *)
| SWrite (c : call) (i : Z) (h : nat)   (* l.187-188 *)
| SFlush (c : call) (i : Z) (h : nat)   (* l.189 *)
| SRelease (c : call) (i : Z) (h : nat) (* end of the with, l.191 *)
| SWait (c : call) (i : Z) (h : nat)    (* l.194: future.result(timeout) *)
| STimeout (c : call) (i : Z) (h : nat) (* l.196-201 *)
| SError (c : call) (i : Z) (h : nat) (e : exn) (* l.204-207 *)
(* _restart_subprocess *)
| RStop                                 (* l.71-72 *)
| RTerminate                            (* l.73-78 *)
| RAcquire                              (* l.81 *)
| RCancel                               (* l.83-85 *)
| RClear                                (* l.86 *)
| RRelease                              (* end of the with; l.88 *)
(* _start_subprocess *)
| TPopen                                (* l.46-55 *)
| TClear                                (* l.58 *)
| TReader                               (* l.59-60; l.62 enters _initialize *)
(* _initialize, after the handshake request has returned *)
| IAcquire                              (* l.147 *)
| IWrite                                (* l.148 *)
| IFlush                                (* l.149 *)
| IRelease                              (* end of the with; l.151 *)
(* the outermost method has returned or raised *)
| Ended (o : outcome).

(** A suspended [_send_request] that called [_restart_subprocess] and
    waits for it to return. *)
Inductive kont :=
| KPoll (c : call)      (* called at l.172; goes on at l.174 *)
| KTimeout (c : call).  (* called at l.201; goes on at l.202 *)

Record thread := Thread {
  at_pc : pc;
  stack : list kont;
}.

(** The reader thread, [_reader_loop]. *)
Inductive reader :=
| LTest                (* l.94-97 *)
| LRead (p : nat)      (* l.99, on the stdout of process p *)
| LHandle (ln : line)  (* l.104-122 *)
| LExit.

(** ** The state *)

Record state := State {
  (* attributes of the InnerMCPClient object *)
  proc : option nat;
  write_lock : option nat;           (* the thread that holds _write_lock *)
  next_id : Z;
  pending_requests : gmap Z nat;     (* id -> address of the Future *)
  stop_event : bool;
  (* the objects it refers to and the threads running its code *)
  futures : list future;
  procs : list process;
  readers : list reader;
  threads : list thread;
}.

Definition set_proc (v : option nat) (s : state) : state :=
  State v (write_lock s) (next_id s) (pending_requests s) (stop_event s)
        (futures s) (procs s) (readers s) (threads s).
Definition set_write_lock (v : option nat) (s : state) : state :=
  State (proc s) v (next_id s) (pending_requests s) (stop_event s)
        (futures s) (procs s) (readers s) (threads s).
Definition set_next_id (v : Z) (s : state) : state :=
  State (proc s) (write_lock s) v (pending_requests s) (stop_event s)
        (futures s) (procs s) (readers s) (threads s).
Definition set_pending_requests (v : gmap Z nat) (s : state) : state :=
  State (proc s) (write_lock s) (next_id s) v (stop_event s)
        (futures s) (procs s) (readers s) (threads s).
Definition set_stop_event (v : bool) (s : state) : state :=
  State (proc s) (write_lock s) (next_id s) (pending_requests s) v
        (futures s) (procs s) (readers s) (threads s).
Definition set_futures (v : list future) (s : state) : state :=
  State (proc s) (write_lock s) (next_id s) (pending_requests s) (stop_event s)
        v (procs s) (readers s) (threads s).
Definition set_procs (v : list process) (s : state) : state :=
  State (proc s) (write_lock s) (next_id s) (pending_requests s) (stop_event s)
        (futures s) v (readers s) (threads s).
Definition set_readers (v : list reader) (s : state) : state :=
  State (proc s) (write_lock s) (next_id s) (pending_requests s) (stop_event s)
        (futures s) (procs s) v (threads s).
Definition set_threads (v : list thread) (s : state) : state :=
  State (proc s) (write_lock s) (next_id s) (pending_requests s) (stop_event s)
        (futures s) (procs s) (readers s) v.

(** [__init__], l.29-39: the attributes are set and the constructing thread
    (thread 0) is about to enter [_start_subprocess]. *)
Definition init : state :=
  State None None 1 ∅ false [] [] [] [Thread TPopen []].

(** ** What a run shows *)

Inductive log :=
| LogInvalidJson (raw : string)     (* warning, l.107 *)
| LogStdoutClosed                   (* info, l.101 *)
| LogNotification (m : json)        (* debug, l.122 *)
| LogReaderError                    (* error, l.125 *)
| LogProcessDied                    (* warning, l.171 *)
| LogRestarting                     (* warning, l.71 *)
| LogTimedOut (i : Z) (m : string)  (* error, l.197 *)
| LogCallError (m : string) (e : exn) (* error, l.205 *)
| LogStarting                       (* info, l.46 *)
| LogInitialized.                   (* info, l.151 *)

Inductive event :=
| EvAlloc (t : nat) (i : Z)                 (* _get_id returned i to thread t *)
| EvRegister (t : nat) (i : Z) (h : nat)    (* l.176 *)
| EvWrite (t : nat) (p : nat) (m : json)    (* stdin.write of process p *)
| EvFlush (t : nat) (p : nat) (ms : list json) (* stdin.flush delivered ms *)
| EvDeadline (t : nat) (i : Z)              (* future.result raised TimeoutError *)
| EvDied (t : nat)                          (* poll() told thread t that the subprocess is dead *)
| EvRestart (t : nat)                       (* thread t entered _restart_subprocess *)
| EvClear (t : nat)                         (* l.86 *)
| EvSpawn (t : nat) (p : nat)               (* Popen returned process p *)
| EvResolve (r : nat) (i : Z) (h : nat) (o : outcome) (* the reader finished a future *)
| EvEnd (t : nat) (o : outcome)             (* the outermost method left *)
| EvLog (l : log).

(** ** The reader: l.104-122 *)

Inductive loop_ctl :=
| Continue
| Break.

(** What a response finishes its future with, l.115-118. *)
Definition resolution (d : list (string * json)) : outcome :=
  match dict_get "error" d with
  | Some e => Raised (InnerMCPError e)
  | None => Returned (default (JObj []) (dict_get "result" d))
  end.

(** l.121-122 *)
Definition notification_log (d : list (string * json)) : list event :=
  if dict_has "method" d && negb (dict_has "id" d)
  then [EvLog (LogNotification (default JNull (dict_get "method" d)))]
  else [].

(** One line, from [json.loads] to the end of the loop body.  A decoded
    value that is not a dict has no [get] (AttributeError), and [pop] of an
    unhashable key raises TypeError unless the dict is empty (CPython
    answers the default before hashing); both end in the handler of l.124,
    which leaves the loop.  (An undecodable line does not get here:
    [readline] has raised, see [reader_step].) *)
Definition handle_line (r : nat) (ln : line) (s : state) : state * loop_ctl * list event :=
  match ln with
  | Undecodable => (s, Break, [EvLog LogReaderError])
  | Invalid raw => (s, Continue, [EvLog (LogInvalidJson raw)])
  | Parsed (JObj d) =>
      match dict_get "id" d with
      | None | Some JNull => (s, Continue, notification_log d)
      | Some v =>
          match py_key v with
          | KUnhashable =>
              if decide (pending_requests s = ∅)
              then (s, Continue, notification_log d)
              else (s, Break, [EvLog LogReaderError])
          | KOther => (s, Continue, notification_log d)
          | KInt k =>
              match pending_requests s !! k with
              | None => (s, Continue, notification_log d)
              | Some h =>
                  let s1 := set_pending_requests (delete k (pending_requests s)) s in
                  match futures s !! h with
                  | Some Pending =>
                      (set_futures (<[h := Finished (resolution d)]> (futures s)) s1,
                       Continue,
                       EvResolve r k h (resolution d) :: notification_log d)
                  | _ => (s1, Continue, notification_log d)
                  end
              end
          end
      end
  | Parsed _ => (s, Break, [EvLog LogReaderError])
  end.

Definition with_stdout (v : list line) (pr : process) : process :=
  Process (alive pr) (stdin_buffer pr) (stdin pr) v.
Definition with_alive (v : bool) (pr : process) : process :=
  Process v (stdin_buffer pr) (stdin pr) (stdout pr).
Definition with_stdin_buffer (v : list json) (pr : process) : process :=
  Process (alive pr) v (stdin pr) (stdout pr).
Definition delivered (pr : process) : process :=
  Process (alive pr) [] (stdin pr ++ stdin_buffer pr) (stdout pr).

(** [_reader_loop], l.90-126.  [readline] blocks while the subprocess is
    alive and has printed nothing more; it answers the empty string once
    the subprocess is dead and its output is used up. *)
Definition reader_step (r : nat) (rd : reader) (s : state)
  : option (reader * state * list event) :=
  match rd with
  | LTest =>
      if stop_event s then Some (LExit, s, [])
      else match proc s with
           | None => Some (LExit, s, [])
           | Some p => Some (LRead p, s, [])
           end
  | LRead p =>
      pr ← procs s !! p;
      match stdout pr with
      | Undecodable :: rest =>
          Some (LExit, set_procs (<[p := with_stdout rest pr]> (procs s)) s,
                [EvLog LogReaderError])
      | ln :: rest =>
          Some (LHandle ln, set_procs (<[p := with_stdout rest pr]> (procs s)) s, [])
      | [] =>
          if alive pr then None
          else Some (LExit, s, [EvLog LogStdoutClosed])
      end
  | LHandle ln =>
      let '(s', ctl, evs) := handle_line r ln s in
      Some (match ctl with Continue => LTest | Break => LExit end, s', evs)
  | LExit => None
  end.

(** ** The methods run by caller threads *)

(** The body of the loop of l.83-85 for one future. *)
Definition cancel (f : future) : future :=
  match f with
  | Pending => Finished (Raised ServerRestarted)
  | Finished o => Finished o
  end.

(** l.83-85 over the whole table. *)
Definition cancel_all (tbl : gmap Z nat) (fs : list future) : list future :=
  map_fold (fun _ h acc => alter cancel h acc) fs tbl.

Definition current_process (s : state) : option (nat * process) :=
  p ← proc s; pr ← procs s !! p; Some (p, pr).

Definition ended (t : nat) (o : outcome) : thread * list event :=
  (Thread (Ended o) [], [EvEnd t o]).

(** [_initialize], [_start_subprocess] and, when there is one, the
    [_restart_subprocess] that called it return; the suspended
    [_send_request] goes on.  With nothing suspended the thread is the one
    that runs [__init__]. *)
Definition return_from_start (t : nat) (ks : list kont) : thread * list event :=
  match ks with
  | [] => ended t (Returned JNull)
  | KPoll c :: ks' => (Thread (GAcquire c) ks', [])
  | KTimeout c :: _ => ended t (Raised (TimeoutError (method c)))
  end.

(** One statement of thread [t].  [None]: the thread cannot move (the lock
    is taken, the future is not finished, the method has ended).  An
    exception that leaves [_send_request] ends the thread: the handlers of
    [_initialize] and [_start_subprocess] log and raise again, and a
    [_send_request] that called [_restart_subprocess] did so outside its
    [try] (l.172) or inside a handler (l.201). *)
Definition thread_step (t : nat) (th : thread) (s : state)
  : option (thread * state * list event) :=
  let ks := stack th in
  let goto (q : pc) := Thread q ks in
  match at_pc th with
  | SPoll c =>
      '(p, pr) ← current_process s;
      if alive pr then Some (goto (GAcquire c), s, [])
      else Some (Thread RStop (KPoll c :: ks), s, [EvLog LogProcessDied; EvDied t])
  | GAcquire c =>
      match write_lock s with
      | None => Some (goto (GRead c), set_write_lock (Some t) s, [])
      | Some _ => None
      end
  | GRead c => Some (goto (GIncr c (next_id s)), s, [])
  | GIncr c i => Some (goto (GReturn c i), set_next_id (next_id s + 1) s, [])
  | GReturn c i => Some (goto (SRegister c i), set_write_lock None s, [EvAlloc t i])
  | SRegister c i =>
      let h := length (futures s) in
      Some (goto (SAcquire c i h),
            set_pending_requests (<[i := h]> (pending_requests s))
              (set_futures (futures s ++ [Pending]) s),
            [EvRegister t i h])
  | SAcquire c i h =>
      match write_lock s with
      | None => Some (goto (SWrite c i h), set_write_lock (Some t) s, [])
      | Some _ => None
      end
  | SWrite c i h =>
      '(p, pr) ← current_process s;
      Some (goto (SFlush c i h),
            set_procs (<[p := with_stdin_buffer (stdin_buffer pr ++ [request c i]) pr]> (procs s)) s,
            [EvWrite t p (request c i)])
  | SFlush c i h =>
      '(p, pr) ← current_process s;
      if alive pr || bool_decide (stdin_buffer pr = [])
      then Some (goto (SRelease c i h),
                 set_procs (<[p := delivered pr]> (procs s)) s,
                 [EvFlush t p (stdin_buffer pr)])
      else Some (goto (SError c i h BrokenPipe), set_write_lock None s, [])
  | SRelease c i h => Some (goto (SWait c i h), set_write_lock None s, [])
  | SWait c i h =>
      match futures s !! h with
      | Some (Finished (Returned v)) =>
          match site c with
          | FromInitialize => Some (goto IAcquire, s, [])
          | FromCaller => let '(th', evs) := ended t (Returned v) in Some (th', s, evs)
          end
      | Some (Finished (Raised e)) => Some (goto (SError c i h e), s, [])
      | _ => None
      end
  | STimeout c i h =>
      Some (Thread RStop (KTimeout c :: ks),
            set_pending_requests (delete i (pending_requests s)) s,
            [EvLog (LogTimedOut i (method c))])
  | SError c i h e =>
      let '(th', evs) := ended t (Raised e) in
      Some (th', set_pending_requests (delete i (pending_requests s)) s,
            EvLog (LogCallError (method c) e) :: evs)
  | RStop =>
      Some (goto RTerminate, set_stop_event true s, [EvLog LogRestarting; EvRestart t])
  | RTerminate =>
      match current_process s with
      | Some (p, pr) =>
          Some (goto RAcquire, set_procs (<[p := with_alive false pr]> (procs s)) s, [])
      | None => Some (goto RAcquire, s, [])
      end
  | RAcquire =>
      match write_lock s with
      | None => Some (goto RCancel, set_write_lock (Some t) s, [])
      | Some _ => None
      end
  | RCancel =>
      Some (goto RClear,
            set_futures (cancel_all (pending_requests s) (futures s)) s, [])
  | RClear =>
      Some (goto RRelease, set_pending_requests ∅ s, [EvClear t])
  | RRelease => Some (goto TPopen, set_write_lock None s, [])
  | TPopen =>
      let p := length (procs s) in
      Some (goto TClear,
            set_proc (Some p) (set_procs (procs s ++ [fresh_process]) s),
            [EvLog LogStarting; EvSpawn t p])
  | TClear => Some (goto TReader, set_stop_event false s, [])
  | TReader =>
      Some (goto (SPoll initialize_call), set_readers (readers s ++ [LTest]) s, [])
  | IAcquire =>
      match write_lock s with
      | None => Some (goto IWrite, set_write_lock (Some t) s, [])
      | Some _ => None
      end
  | IWrite =>
      '(p, pr) ← current_process s;
      Some (goto IFlush,
            set_procs (<[p := with_stdin_buffer (stdin_buffer pr ++ [initialized_notification]) pr]> (procs s)) s,
            [EvWrite t p initialized_notification])
  | IFlush =>
      '(p, pr) ← current_process s;
      if alive pr || bool_decide (stdin_buffer pr = [])
      then Some (goto IRelease,
                 set_procs (<[p := delivered pr]> (procs s)) s,
                 [EvFlush t p (stdin_buffer pr)])
      else let '(th', evs) := ended t (Raised BrokenPipe) in
           Some (th', set_write_lock None s, evs)
  | IRelease =>
      let '(th', evs) := return_from_start t ks in
      Some (th', set_write_lock None s, EvLog LogInitialized :: evs)
  | Ended _ => None
  end.

(** ** Transitions *)

Inductive label :=
| Run (t : nat)            (* thread t executes its next statement *)
| Deadline (t : nat)       (* the timeout of future.result elapses in thread t *)
| PopenFails (t : nat)     (* Popen raises in thread t *)
| Invoke (m : string) (p : json) (d : option Z)
                           (* a new thread enters _send_request(m, p, d) *)
| Read (r : nat)           (* reader thread r executes its next statement *)
| Emit (p : nat) (ln : line) (* subprocess p prints a line *)
| Exit (p : nat).          (* subprocess p exits on its own *)

(** The object can be used once [__init__] has returned. *)
Definition constructed (s : state) : bool :=
  match threads s !! 0%nat with
  | Some (Thread (Ended (Returned _)) _) => true
  | _ => false
  end.

Definition step (l : label) (s : state) : option (state * list event) :=
  match l with
  | Run t =>
      th ← threads s !! t;
      '(th', s', evs) ← thread_step t th s;
      Some (set_threads (<[t := th']> (threads s')) s', evs)
  | Deadline t =>
      th ← threads s !! t;
      match at_pc th with
      | SWait c i h =>
          match futures s !! h with
          | Some Pending =>
              Some (set_threads (<[t := Thread (STimeout c i h) (stack th)]> (threads s)) s,
                    [EvDeadline t i])
          | _ => None
          end
      | _ => None
      end
  | PopenFails t =>
      th ← threads s !! t;
      match at_pc th with
      | TPopen =>
          let '(th', evs) := ended t (Raised SpawnError) in
          Some (set_threads (<[t := th']> (threads s)) s, EvLog LogStarting :: evs)
      | _ => None
      end
  | Invoke m p d =>
      if constructed s
      then Some (set_threads (threads s ++ [Thread (SPoll (Call m p d FromCaller)) []]) s, [])
      else None
  | Read r =>
      rd ← readers s !! r;
      '(rd', s', evs) ← reader_step r rd s;
      Some (set_readers (<[r := rd']> (readers s')) s', evs)
  | Emit p ln =>
      pr ← procs s !! p;
      if alive pr
      then Some (set_procs (<[p := with_stdout (stdout pr ++ [ln]) pr]> (procs s)) s, [])
      else None
  | Exit p =>
      pr ← procs s !! p;
      if alive pr
      then Some (set_procs (<[p := with_alive false pr]> (procs s)) s, [])
      else None
  end.

(** A schedule, run from a state; the events of its steps in order. *)
Fixpoint run (ls : list label) (s : state) : option (state * list event) :=
  match ls with
  | [] => Some (s, [])
  | l :: ls' =>
      '(s1, e1) ← step l s;
      '(s2, e2) ← run ls' s1;
      Some (s2, e1 ++ e2)
  end.

(** The states the client can be in, with the events that led there. *)
Inductive reach : state -> list event -> Prop :=
| reach_init : reach init []
| reach_step s tr l s' evs :
    reach s tr -> step l s = Some (s', evs) -> reach s' (tr ++ evs).

(** ** Observations on a run *)

(** The ids [_get_id] has returned, oldest first. *)
Fixpoint allocs (tr : list event) : list Z :=
  match tr with
  | [] => []
  | EvAlloc _ i :: tr' => i :: allocs tr'
  | _ :: tr' => allocs tr'
  end.

(** The waiters put into [_pending_requests], oldest first: id and
    address of the future. *)
Fixpoint registrations (tr : list event) : list (Z * nat) :=
  match tr with
  | [] => []
  | EvRegister _ i h :: tr' => (i, h) :: registrations tr'
  | _ :: tr' => registrations tr'
  end.

Fixpoint count (P : event -> bool) (tr : list event) : nat :=
  match tr with
  | [] => 0%nat
  | e :: tr' => ((if P e then 1 else 0) + count P tr')%nat
  end.

Definition is_restart (e : event) : bool :=
  match e with EvRestart _ => true | _ => false end.
Definition is_deadline (e : event) : bool :=
  match e with EvDeadline _ _ => true | _ => false end.
Definition is_died (e : event) : bool :=
  match e with EvDied _ => true | _ => false end.
Definition restart_by (t : nat) (e : event) : bool :=
  match e with EvRestart t' => bool_decide (t' = t) | _ => false end.
Definition deadline_of (t : nat) (e : event) : bool :=
  match e with EvDeadline t' _ => bool_decide (t' = t) | _ => false end.
Definition died_by (t : nat) (e : event) : bool :=
  match e with EvDied t' => bool_decide (t' = t) | _ => false end.
Definition is_spawn (e : event) : bool :=
  match e with EvSpawn _ _ => true | _ => false end.
Definition is_end (e : event) : bool :=
  match e with EvEnd _ _ => true | _ => false end.
Definition resolves (h : nat) (e : event) : bool :=
  match e with EvResolve _ _ h' _ => bool_decide (h' = h) | _ => false end.

Definition is_log (e : event) : bool :=
  match e with EvLog _ => true | _ => false end.

(** The points inside a [with self._write_lock] block. *)
Definition in_critical (q : pc) : bool :=
  match q with
  | GRead _ | GIncr _ _ | GReturn _ _
  | SWrite _ _ _ | SFlush _ _ _ | SRelease _ _ _
  | RCancel | RClear | RRelease
  | IWrite | IFlush | IRelease => true
  | _ => false
  end.

(** The points inside the block of [_get_id]. *)
Definition in_get_id (q : pc) : bool :=
  match q with
  | GRead _ | GIncr _ _ | GReturn _ _ => true
  | _ => false
  end.

(** The points between [stdin.write] and the end of the block of l.186. *)
Definition in_write (q : pc) : bool :=
  match q with
  | SWrite _ _ _ | SFlush _ _ _ | SRelease _ _ _
  | IWrite | IFlush | IRelease => true
  | _ => false
  end.

(** The request a thread has registered a waiter for. *)
Definition waiter_of (q : pc) : option (call * Z * nat) :=
  match q with
  | SAcquire c i h | SWrite c i h | SFlush c i h | SRelease c i h
  | SWait c i h | STimeout c i h | SError c i h _ => Some (c, i, h)
  | _ => None
  end.

(** ** Invariants of the reachable states *)

Definition mutex (s : state) : Prop :=
  forall t th, threads s !! t = Some th ->
    in_critical (at_pc th) = true -> write_lock s = Some t.

Record ids_inv (s : state) (tr : list event) : Prop := {
  ids_sorted : StronglySorted Z.lt (allocs tr);
  ids_below : Forall (fun j => j < next_id s) (allocs tr);
  ids_incr : forall t th c i, threads s !! t = Some th ->
    at_pc th = GIncr c i -> i = next_id s;
  ids_return : forall t th c i, threads s !! t = Some th ->
    at_pc th = GReturn c i -> i + 1 = next_id s /\ Forall (fun j => j < i) (allocs tr);
}.

(** A restart has failed the waiters of the table (l.83-85) and has not
    yet emptied it (l.86). *)
Definition clearing (s : state) : bool :=
  existsb (fun th => match at_pc th with RClear => true | _ => false end)
          (threads s).

Record reg_inv (s : state) (tr : list event) : Prop := {
  reg_alloc : forall i h, (i, h) ∈ registrations tr ->
    i ∈ allocs tr /\ (h < length (futures s))%nat;
  reg_ids : NoDup (registrations tr).*1;
  reg_handles : NoDup (registrations tr).*2;
  reg_unregistered : forall t th c i, threads s !! t = Some th ->
    at_pc th = SRegister c i -> i ∈ allocs tr /\ i ∉ (registrations tr).*1;
  reg_distinct : forall t1 t2 th1 th2 c1 c2 i,
    threads s !! t1 = Some th1 -> threads s !! t2 = Some th2 ->
    at_pc th1 = SRegister c1 i -> at_pc th2 = SRegister c2 i -> t1 = t2;
  reg_pending : forall i h, pending_requests s !! i = Some h ->
    (i, h) ∈ registrations tr;
  reg_fresh : clearing s = false ->
    forall i h, pending_requests s !! i = Some h ->
    futures s !! h = Some Pending;
  reg_failed : forall i h o, pending_requests s !! i = Some h ->
    futures s !! h = Some (Finished o) -> o = Raised ServerRestarted;
}.


(** The message a thread is about to flush. *)
Definition flushing (q : pc) : option json :=
  match q with
  | SFlush c i _ => Some (request c i)
  | IFlush => Some initialized_notification
  | _ => None
  end.

(** A thread that has seen a deadline elapse or the subprocess dead and
    has not yet executed the first statement of [_restart_subprocess]. *)
Definition restart_due (q : pc) : nat :=
  match q with
  | STimeout _ _ _ | RStop => 1
  | _ => 0
  end.

Definition restart_due_of (s : state) (t : nat) : nat :=
  match threads s !! t with
  | Some th => restart_due (at_pc th)
  | None => 0
  end.

Definition registered_request (tr : list event) (m : json) : Prop :=
  m = initialized_notification
  \/ exists t c i h, m = request c i /\ EvRegister t i h ∈ tr.

Record wire_inv (s : state) (tr : list event) : Prop := {
  wire_waiter : forall t th c i h, threads s !! t = Some th ->
    waiter_of (at_pc th) = Some (c, i, h) -> EvRegister t i h ∈ tr;
  wire_buffer : forall p pr, proc s = Some p -> procs s !! p = Some pr ->
    alive pr = true ->
    stdin_buffer pr = []
    \/ exists t th m, write_lock s = Some t /\ threads s !! t = Some th
         /\ flushing (at_pc th) = Some m /\ stdin_buffer pr = [m];
  wire_received : forall p pr m, procs s !! p = Some pr ->
    m ∈ stdin pr ++ stdin_buffer pr -> registered_request tr m;
}.


Definition count_inv (s : state) (tr : list event) : Prop :=
  forall t, (count (restart_by t) tr + restart_due_of s t
             = count (deadline_of t) tr + count (died_by t) tr)%nat.

(** The ids [_get_id] has returned during generation [g], where an event
    that satisfies [mark] opens the next generation. *)
Fixpoint allocs_in (mark : event -> bool) (g : nat) (tr : list event) : list Z :=
  match tr with
  | [] => []
  | e :: tr' =>
      if mark e then
        match g with
        | O => []
        | S g' => allocs_in mark g' tr'
        end
      else
        match e, g with
        | EvAlloc _ i, O => i :: allocs_in mark g tr'
        | _, _ => allocs_in mark g tr'
        end
  end.

(** Waiter [h] was registered under id [i] in generation [g]. *)
Definition registered_in (mark : event -> bool) (g : nat) (i : Z) (h : nat)
    (tr : list event) : Prop :=
  exists t tr1 tr2, tr = tr1 ++ EvRegister t i h :: tr2 /\ count mark tr1 = g.

(** The state after the reader has handled a response for a known id. *)
Definition resolved (r : nat) (d : list (string * json)) (k : Z) (h : nat)
    (s : state) : state :=
  set_readers (<[r := LTest]> (readers s))
    (set_futures (<[h := Finished (resolution d)]> (futures s))
       (set_pending_requests (delete k (pending_requests s)) s)).

(** ** Schedules *)

(** Thread [t] runs a whole [_start_subprocess] that succeeds: it spawns
    subprocess [p], sends the handshake request with id [i], the
    subprocess answers, reader [r] hands the answer over, and the thread
    sends the notification. *)
Definition response (i : Z) (result : json) : line :=
  Parsed (JObj [("jsonrpc", JStr "2.0"); ("id", JInt i); ("result", result)]).

Definition start_ok (t p r : nat) (i : Z) : list label :=
  replicate 13 (Run t) ++ [Emit p (response i (JObj []))]
  ++ replicate 3 (Read r) ++ replicate 5 (Run t).

(** A new thread calls [_send_request]. *)
Definition invoke (c : call) : list label :=
  [Invoke (method c) (params c) (timeout c)].

(** Thread [t] runs [_send_request] from l.170 up to [future.result],
    with the subprocess alive. *)
Definition send (t : nat) : list label := replicate 10 (Run t).

(** Thread [t] runs [_restart_subprocess] up to the call of
    [_start_subprocess], from the handler of l.196 or from l.170. *)
Definition restart (t : nat) : list label := replicate 7 (Run t).

(** Thread [t] spawns a subprocess that never answers the handshake
    request; the deadline elapses and the handler restarts. *)
Definition silent_handshake (t : nat) : list label :=
  replicate 13 (Run t) ++ [Deadline t] ++ restart t.

Definition echo : call := call_tool "echo" (JObj [("x", JInt 1)]) None.

Definition is_clear (e : event) : bool :=
  match e with EvClear _ => true | _ => false end.

(** The events of a run that satisfy [P], in order. *)
Fixpoint keep (P : event -> bool) (tr : list event) : list event :=
  match tr with
  | [] => []
  | e :: tr' => if P e then e :: keep P tr' else keep P tr'
  end.

(** Two calls wait for a subprocess that does not answer; both deadlines
    elapse before either handler has run; then each thread runs its
    handler, and the new subprocesses answer their handshakes. *)
Definition two_deadlines : list label :=
  start_ok 0 0 0 1 ++ invoke echo ++ invoke echo ++ send 1 ++ send 2
  ++ [Deadline 1%nat; Deadline 2%nat]
  ++ restart 1 ++ start_ok 1 1 1 4
  ++ restart 2 ++ start_ok 2 2 2 5.




(** The subprocess answers a call late: the reader has read the line when
    the deadline of the call elapses, the caller restarts, and a second
    call registers its waiter before the reader handles the line. *)
Definition late_response : list label :=
  start_ok 0 0 0 1 ++ invoke echo ++ send 1
  ++ [Emit 0 (response 2 (JObj [("x", JInt 1)])); Read 0; Read 0]
  ++ [Deadline 1%nat] ++ restart 1 ++ start_ok 1 1 1 3
  ++ invoke echo ++ send 2.

(** A call waits and the reader has read its response. *)
Definition response_read (ln : line) : list label :=
  start_ok 0 0 0 1 ++ invoke echo ++ send 1 ++ [Emit 0 ln; Read 0; Read 0].


(** A call waits, the subprocess exits, and a second call is made. *)
Definition send_after_exit : list label :=
  start_ok 0 0 0 1 ++ invoke echo ++ send 1 ++ [Exit 0] ++ invoke echo.

(** ... the second call restarts, the new subprocess answers the
    handshake and then the call; the first caller sees its failure. *)
Definition recover : list label :=
  restart 2 ++ start_ok 2 1 1 3 ++ replicate 9 (Run 2%nat)
  ++ [Emit 1 (response 4 (JObj [("x", JInt 1)])); Read 1; Read 1; Read 1;
      Run 2; Run 1; Run 1].

(** Two calls; the first waits, the second has its id and is about to
    register its waiter.  The deadline of the first elapses and its
    restart runs up to the end of the loop of l.83-85; the second
    registers; the restart clears the table. *)
Definition registers_during_restart : list label :=
  start_ok 0 0 0 1 ++ invoke echo ++ invoke echo ++ send 1
  ++ replicate 5 (Run 2%nat) ++ [Deadline 1%nat] ++ replicate 5 (Run 1%nat)
  ++ [Run 2%nat; Run 1%nat].

(** Two calls wait; the subprocess answers the second and the reader has
    read the line when the deadline of the first elapses; the restart of
    the first runs up to the end of the loop of l.83-85. *)
Definition response_during_restart : list label :=
  start_ok 0 0 0 1 ++ invoke echo ++ invoke echo ++ send 1 ++ send 2
  ++ [Emit 0 (response 3 (JObj [("x", JInt 1)])); Read 0; Read 0]
  ++ [Deadline 1%nat] ++ replicate 5 (Run 1%nat).

(** ** Further invariants of the reachable states *)

(** Every entry of [_pending_requests] is the waiter of a thread that is
    inside [_send_request], between l.176 and the end of its handlers. *)
Definition owned_inv (s : state) : Prop :=
  forall i h, pending_requests s !! i = Some h ->
    exists t th c, threads s !! t = Some th
      /\ waiter_of (at_pc th) = Some (c, i, h).

(** Where a finished future has its outcome from: the loop of a restart,
    or a response the reader has handled under the id the future was
    registered with. *)
Definition answered_inv (s : state) (tr : list event) : Prop :=
  forall h o, futures s !! h = Some (Finished o) ->
    o = Raised ServerRestarted
    \/ exists r i, EvResolve r i h o ∈ tr /\ (i, h) ∈ registrations tr.

Definition is_timeout_error (e : exn) : bool :=
  match e with TimeoutError _ => true | _ => false end.

Record timeout_inv (s : state) (tr : list event) : Prop := {
  to_future : forall h e, futures s !! h = Some (Finished (Raised e)) ->
    is_timeout_error e = false;
  to_error : forall t th c i h e, threads s !! t = Some th ->
    at_pc th = SError c i h e -> is_timeout_error e = false;
  to_handler : forall t th c i h, threads s !! t = Some th ->
    at_pc th = STimeout c i h -> EvDeadline t i ∈ tr;
  to_stack : forall t th c, threads s !! t = Some th ->
    KTimeout c ∈ stack th -> exists i, EvDeadline t i ∈ tr;
  to_raised : forall t m, EvEnd t (Raised (TimeoutError m)) ∈ tr ->
    exists i, EvDeadline t i ∈ tr;
}.






(** The call a thread is executing [_send_request] for. *)
Definition call_of (q : pc) : option call :=
  match q with
  | SPoll c | GAcquire c | GRead c | GIncr c _ | GReturn c _ | SRegister c _
  | SAcquire c _ _ | SWrite c _ _ | SFlush c _ _ | SRelease c _ _
  | SWait c _ _ | STimeout c _ _ | SError c _ _ _ => Some c
  | _ => None
  end.

Definition kont_call (k : kont) : call :=
  match k with KPoll c | KTimeout c => c end.

(** The only call made from [_initialize] is the handshake request. *)
Definition handshake_or_caller (c : call) : Prop :=
  site c = FromInitialize -> c = initialize_call.

(** The points of [_initialize] after the handshake request has returned. *)
Definition in_initialize (q : pc) : bool :=
  match q with IAcquire | IWrite | IFlush | IRelease => true | _ => false end.

(** The request a thread has passed to [stdin.write]. *)
Definition has_written (q : pc) : option (call * Z) :=
  match q with
  | SFlush c i _ | SRelease c i _ | SWait c i _ | STimeout c i _ => Some (c, i)
  | _ => None
  end.

(** Thread [t] has written a handshake request, and the reader has handed
    it a response with the id of that request and a result. *)
Definition handshaken (t : nat) (tr : list event) : Prop :=
  exists r i h v p, EvWrite t p (request initialize_call i) ∈ tr
    /\ EvRegister t i h ∈ tr /\ EvResolve r i h (Returned v) ∈ tr.

(** Thread [t] has written the [notifications/initialized] message. *)
Definition notified (t : nat) (tr : list event) : Prop :=
  exists p, EvWrite t p initialized_notification ∈ tr.

Record init_inv (s : state) (tr : list event) : Prop := {
  hs_calls : forall t th, threads s !! t = Some th ->
    (forall c, call_of (at_pc th) = Some c -> handshake_or_caller c)
    /\ Forall (fun k => handshake_or_caller (kont_call k)) (stack th);
  hs_first : forall th, threads s !! 0%nat = Some th ->
    (forall c, call_of (at_pc th) = Some c -> site c = FromInitialize)
    /\ Forall (fun k => site (kont_call k) = FromInitialize) (stack th);
  hs_written : forall t th c i, threads s !! t = Some th ->
    has_written (at_pc th) = Some (c, i) ->
    exists p, EvWrite t p (request c i) ∈ tr;
  hs_done : forall t th, threads s !! t = Some th ->
    in_initialize (at_pc th) = true -> handshaken t tr;
  hs_notified : forall t th, threads s !! t = Some th ->
    at_pc th = IFlush \/ at_pc th = IRelease -> notified t tr;
  hs_constructed : forall th v, threads s !! 0%nat = Some th ->
    at_pc th = Ended (Returned v) -> handshaken 0 tr /\ notified 0 tr;
}.

Definition spawn_by (t : nat) (e : event) : bool :=
  match e with EvSpawn t' _ => bool_decide (t' = t) | _ => false end.

(** A thread that has entered [_restart_subprocess], or [__init__], and
    has not yet called [Popen]. *)
Definition spawn_due (q : pc) : nat :=
  match q with
  | RTerminate | RAcquire | RCancel | RClear | RRelease | TPopen => 1
  | _ => 0
  end.

Definition spawn_due_of (s : state) (t : nat) : nat :=
  match threads s !! t with
  | Some th => spawn_due (at_pc th)
  | None => 0
  end.

(** The subprocess that [__init__] spawns without a restart; its thread
    is thread 0. *)
Definition first_spawn (t : nat) : nat :=
  match t with O => 1 | S _ => 0 end.

Definition spawn_inv (s : state) (tr : list event) : Prop :=
  forall t, (count (spawn_by t) tr + spawn_due_of s t
             <= count (restart_by t) tr + first_spawn t)%nat.

(** The id a message carries, as a JSON-RPC server reads it. *)
Definition request_id (m : json) : json :=
  match m with
  | JObj d => default JNull (dict_get "id" d)
  | _ => JNull
  end.

(** What a JSON-RPC server prints in answer to the request [m]: the id of
    the request, and a result or an error. *)
Definition result_response (m v : json) : line :=
  Parsed (JObj [("jsonrpc", JStr "2.0"); ("id", request_id m); ("result", v)]).

Definition error_response (m e : json) : line :=
  Parsed (JObj [("jsonrpc", JStr "2.0"); ("id", request_id m); ("error", e)]).

(** The ids of the requests passed to [stdin.write], oldest first. *)
Fixpoint written_ids (tr : list event) : list Z :=
  match tr with
  | [] => []
  | EvWrite _ _ m :: tr' =>
      match request_id m with
      | JInt i => i :: written_ids tr'
      | _ => written_ids tr'
      end
  | _ :: tr' => written_ids tr'
  end.

Record written_inv (s : state) (tr : list event) : Prop := {
  wr_registered : forall i, i ∈ written_ids tr -> i ∈ (registrations tr).*1;
  wr_fresh : forall t th c i h, threads s !! t = Some th ->
    at_pc th = SAcquire c i h \/ at_pc th = SWrite c i h ->
    i ∉ written_ids tr;
  wr_once : NoDup (written_ids tr);
}.

(** A call waits for its response, and the reader is blocked in
    [readline]. *)
Definition call_waits : list label :=
  start_ok 0 0 0 1 ++ invoke echo ++ send 1 ++ [Read 0].

(** ** Masking: [src/proxy_mcp/masking.py] *)

(** One finding of the analyzer. *)
Record recognizer_result := RecognizerResult {
  entity_type : string;
  span_start : nat;
  span_end : nat;
}.

(** The two engines of the presidio library, as [mask_text] calls them:
    [analyzer.analyze(text=text, entities=None, language='en')] and
    [anonymizer.anonymize(text=text, analyzer_results=..., operators=operators).text].
    [None]: the call raises. *)
Class Presidio := {
  analyze : string -> option (list recognizer_result);
  anonymize : string -> list recognizer_result -> option string;
}.

Definition EXCLUDED_ENTITIES : list string :=
  ["DATE"; "DATE_TIME"; "US_DRIVER_LICENSE"; "ORGANIZATION"; "US_PASSPORT"].

(** l.107-136.  Whatever the engines raise is caught (l.134) and the text
    is returned as it came. *)
Definition mask_text `{Presidio} (text : string) : string :=
  if decide (text = "") then text
  else
    match analyze text with
    | None => text
    | Some analysis_results =>
        let filtered_results :=
          filter (fun r => entity_type r ∉ EXCLUDED_ENTITIES) analysis_results in
        default text (anonymize text filtered_results)
    end.

(** l.138-169: [mask_value], with the loop of [mask_json] as its case for
    a dict.  The members of an object are kept as they were read; what the
    dict holds under a key is given by [dict_get]. *)
Fixpoint mask_value `{Presidio} (value : json) : json :=
  match value with
  | JStr s => JStr (mask_text s)
  | JObj data => JObj (map (fun kv => (kv.1, mask_value kv.2)) data)
  | JArr xs => JArr (map mask_value xs)
  | _ => value
  end.

(** The name Python gives the type of a decoded JSON value. *)
Definition type_name (v : json) : string :=
  match v with
  | JNull => "NoneType"
  | JBool _ => "bool"
  | JInt _ => "int"
  | JFloat _ => "float"
  | JStr _ => "str"
  | JArr _ => "list"
  | JObj _ => "dict"
  end.

(** [mask_json(data)], l.156-169, as the tools call it: a value that is no
    dict has no [items] (AttributeError, with its message). *)
Definition mask_json `{Presidio} (data : json) : json + string :=
  match data with
  | JObj _ => inl (mask_value data)
  | _ => inr ("'" +:+ type_name data +:+ "' object has no attribute 'items'")
  end.

(** The string values of a JSON value, in order; keys are not values. *)
Fixpoint strings (v : json) : list string :=
  match v with
  | JStr s => [s]
  | JArr xs => flat_map strings xs
  | JObj d => flat_map (fun kv => strings kv.2) d
  | _ => []
  end.

(** A JSON value with its string values blanked. *)
Fixpoint skeleton (v : json) : json :=
  match v with
  | JStr _ => JStr ""
  | JArr xs => JArr (map skeleton xs)
  | JObj d => JObj (map (fun kv => (kv.1, skeleton kv.2)) d)
  | _ => v
  end.

(** Engines that raise on every text. *)
Definition broken_engines : Presidio :=
  {| analyze := fun _ => None; anonymize := fun _ _ => None |}.

(** ** The tools of the proxy: [src/proxy_mcp/server.py] *)

(** l.18-26: the command of the inner server.  [words] is what
    [INNER_CMD_STR.split()] gives and [executable] is [sys.executable];
    [None] is the IndexError of [INNER_CMD[0]] on an empty list. *)
Definition INNER_CMD (executable : string) (words : list string)
  : option (list string) :=
  match words with
  | [] => None
  | w :: ws =>
      let w' := if decide (w = "python") then executable else w in
      if bool_decide (w' = executable) && negb (bool_decide ("-u" ∈ w' :: ws))
      then Some (w' :: "-u" :: ws)
      else Some (w' :: ws)
  end.

(** The exceptions the handler of a tool catches: the one [call_tool] has
    raised, or the AttributeError of [mask_json], with its message. *)
Inductive tool_exception :=
| CallRaised (e : exn)
| MaskRaised (msg : string).

(** [str(e)] *)
Class PyStr := py_str : tool_exception -> string.

Definition error_dict (msg : string) : json := JObj [("error", JStr msg)].

(** The arguments of the inner tool, l.52-60. *)
Definition search_args (index : string) (query : option json) : json :=
  JObj [("index", JStr index);
        ("query", default (JObj [("query", JObj [("match_all", JObj [])])]) query)].

(** l.35-69.  [inner_client] is [None] when the constructor has raised
    (l.29-33); otherwise the client is given by what a call to it ends
    with. *)
Definition search_index_masked `{Presidio} `{PyStr}
    (inner_client : option (call -> outcome))
    (index : string) (query : option json) : json :=
  match inner_client with
  | None => error_dict "Inner MCP server is not running."
  | Some client =>
      match client (call_tool "SearchIndexTool" (search_args index query) None) with
      | Returned raw_result =>
          match mask_json raw_result with
          | inl masked_result => masked_result
          | inr msg =>
              error_dict ("Failed to search and mask: " +:+ py_str (MaskRaised msg))
          end
      | Raised e =>
          error_dict ("Failed to search and mask: " +:+ py_str (CallRaised e))
      end
  end.

(** ** The interactive client: [src/interactive_client.py] *)

(** l.28-39.  [None]: [tool["name"]] raises, KeyError for a dict without
    the key and TypeError for a value that is no dict. *)
Definition mcp_tool_to_openai_function (tool : json) : option json :=
  match tool with
  | JObj d =>
      name ← dict_get "name" d;
      Some (JObj [("type", JStr "function");
                  ("function",
                   JObj [("name", name);
                         ("description", default (JStr "") (dict_get "description" d));
                         ("parameters", default (JObj []) (dict_get "inputSchema" d))])])
  | _ => None
  end.

(** The attributes of an [InteractiveClient] that [start_servers] fills:
    the keys of [self.servers], the list [self.tools], and the
    assignments to [self.tool_map], oldest first, each with its key. *)
Record registry := Registry {
  servers : list string;
  tools : list json;
  tool_map : list (json * json);
}.

(** l.45-47 *)
Definition empty_registry : registry := Registry [] [] [].

(** Whether a value can be the key of a dict. *)
Definition hashable (v : json) : bool :=
  match v with JArr _ | JObj _ => false | _ => true end.

(** The loop of l.65-67.  The flag tells whether the loop has come to its
    end; otherwise an exception has left it, which the handler of l.71
    logs. *)
Fixpoint load_tools (name : string) (server_tools : list json) (st : registry)
  : registry * bool :=
  match server_tools with
  | [] => (st, true)
  | tool :: rest =>
      match mcp_tool_to_openai_function tool, tool with
      | Some f, JObj d =>
          let st1 := Registry (servers st) (tools st ++ [f]) (tool_map st) in
          match dict_get "name" d with
          | Some key =>
              if hashable key
              then load_tools name rest
                     (Registry (servers st1) (tools st1)
                        (tool_map st1
                         ++ [(key, JObj [("server", JStr name); ("def", tool)])]))
              else (st1, false)
          | None => (st1, false)
          end
      | _, _ => (st, false)
      end
  end.

(** The keys of a dict in the order in which [for k in d] gives them. *)
Fixpoint dict_keys (d : list (string * json)) : list string :=
  match d with
  | [] => []
  | (k, _) :: d' => k :: filter (fun k' => k' ≠ k) (dict_keys d')
  end.

(** [d.items()] *)
Definition dict_items (d : list (string * json)) : list (string * json) :=
  omap (fun k => (fun v => (k, v)) <$> dict_get k d) (dict_keys d).

(** What [for tool in server_tools] goes through; [None]: the value
    cannot be iterated.  A string gives its characters and a dict its
    keys. *)
Definition iterate (v : json) : option (list json) :=
  match v with
  | JArr xs => Some xs
  | JStr s => Some ((fun c => JStr (String c EmptyString)) <$> String.list_ascii_of_string s)
  | JObj d => Some (JStr <$> dict_keys d)
  | _ => None
  end.

(** What l.53-62 come to for one server: the command, the environment
    or the constructor of [InnerMCPClient] raises; or the client is
    made, and [_send_request("tools/list", {})] ends as given. *)
Inductive started :=
| StartRaised
| Started (tools_list : outcome).

(** The body of the loop of [start_servers] for one server, l.52-72. *)
Definition start_server (name : string) (r : started) (st : registry)
  : registry * bool :=
  match r with
  | StartRaised => (st, false)
  | Started o =>
      let st1 := Registry (servers st ++ [name]) (tools st) (tool_map st) in
      match o with
      | Raised _ => (st1, false)
      | Returned (JObj response) =>
          match iterate (default (JArr []) (dict_get "tools" response)) with
          | Some server_tools => load_tools name server_tools st1
          | None => (st1, false)
          end
      | Returned _ => (st1, false)
      end
  end.

(** l.49-72.  [launch] is what starting the server of a configuration
    comes to.  [None]: [mcpServers] is no dict and has no [items]. *)
Definition start_servers (launch : string -> json -> started)
    (config : list (string * json)) (st : registry) : option registry :=
  match default (JObj []) (dict_get "mcpServers" config) with
  | JObj mcp_servers =>
      Some (foldl (fun st '(name, server_config) =>
                     (start_server name (launch name server_config) st).1)
                  st (dict_items mcp_servers))
  | _ => None
  end.

(** [self.tool_map[tool_name]] for a string, l.109-110: the last
    assignment under that key. *)
Fixpoint tool_map_get (tool_name : string) (tm : list (json * json)) : option json :=
  match tm with
  | [] => None
  | (k, v) :: tm' =>
      match tool_map_get tool_name tm' with
      | Some w => Some w
      | None =>
          match k with
          | JStr s => if decide (s = tool_name) then Some v else None
          | _ => None
          end
      end
  end.

(** An assignment to [self.tool_map]: the value names a server that is in
    [self.servers] and holds the definition of a tool whose name is the
    key and whose function is in [self.tools]. *)
Definition registered_tool (st : registry) (key entry : json) : Prop :=
  exists server d f,
    entry = JObj [("server", JStr server); ("def", JObj d)]
    /\ server ∈ servers st
    /\ dict_get "name" d = Some key
    /\ mcp_tool_to_openai_function (JObj d) = Some f
    /\ f ∈ tools st.

Definition registry_ok (st : registry) : Prop :=
  Forall (fun ke => registered_tool st ke.1 ke.2) (tool_map st).

(** A tool definition the loop of l.65-67 gets past. *)
Definition well_formed_tool (tool : json) : Prop :=
  exists d key, tool = JObj d /\ dict_get "name" d = Some key
    /\ hashable key = true.

(** The servers whose client has been made, in the order of the
    configuration. *)
Definition started_servers (launch : string -> json -> started)
    (items : list (string * json)) : list string :=
  omap (fun '(name, server_config) =>
          match launch name server_config with
          | Started _ => Some name
          | StartRaised => None
          end) items.

(** * Proofs *)

(** ** Tactics *)

(** Reduce the projections of a state that a transition has built. *)
Ltac sproj :=
  cbn [proc write_lock next_id pending_requests stop_event futures procs
       readers threads set_proc set_write_lock set_next_id
       set_pending_requests set_stop_event set_futures set_procs
       set_readers set_threads at_pc stack in_critical in_get_id in_write
       waiter_of allocs registrations app fst snd flushing restart_due count
       is_restart is_deadline is_died restart_by deadline_of died_by resolves
       is_log] in *.

(** All the ways [step l s = Some (s', evs)] can hold, for the labels of
    caller threads and of the environment. *)
Ltac step_inv H :=
  unfold step in H;
  repeat (simplify_option_eq || case_match);
  try (unfold thread_step, current_process in *;
       repeat (simplify_option_eq || case_match));
  unfold return_from_start, ended in *;
  repeat (simplify_eq || case_match).

Lemma lookup_updated {A} (l : list A) (t t0 : nat) (x x0 y : A) :
  l !! t = Some x -> <[t := y]> l !! t0 = Some x0 ->
  (t0 = t /\ x0 = y) \/ (t0 <> t /\ l !! t0 = Some x0).
Proof.
  intros Hl H. destruct (decide (t0 = t)) as [->|Hne].
  - left. rewrite list_lookup_insert_eq in H by (eapply lookup_lt_Some; eauto).
    by simplify_eq.
  - right. by rewrite list_lookup_insert_ne in H.
Qed.

Lemma insert_lookup_same {A} (l : list A) i x y :
  l !! i = Some x -> <[i := y]> l !! i = Some y.
Proof. intros H. apply list_lookup_insert_eq. by eapply lookup_lt_Some. Qed.

Ltac split_lookup Hlk :=
  match type of Hlk with
  | <[?t := ?y]> ?l !! ?t0 = Some ?x0 =>
      match goal with
      | Hl : l !! t = Some _ |- _ =>
          destruct (lookup_updated _ _ _ _ _ _ Hl Hlk) as [[-> ->]|[? ?]];
          clear Hlk
      end
  | (?l ++ [?y]) !! ?t0 = Some ?x0 =>
      apply lookup_snoc_Some in Hlk; destruct Hlk as [[? ?]|[? ?]]; subst
  end.

Ltac split_lookups :=
  repeat match goal with
  | Hlk : <[_ := _]> _ !! _ = Some _ |- _ => split_lookup Hlk
  | Hlk : (_ ++ [_]) !! _ = Some _ |- _ => split_lookup Hlk
  end; sproj.

(** ** Runs *)

Lemma run_app ls1 ls2 s s1 tr1 s2 tr2 :
  run ls1 s = Some (s1, tr1) -> run ls2 s1 = Some (s2, tr2) ->
  run (ls1 ++ ls2) s = Some (s2, tr1 ++ tr2).
Proof.
  revert s tr1. induction ls1 as [|l ls1 IH]; intros s tr1 H1 H2; simpl in *.
  - by simplify_eq.
  - destruct (step l s) as [[sa ea]|]; simpl in *; [|done].
    destruct (run ls1 sa) as [[sb eb]|] eqn:E; simpl in *; [|done].
    simplify_eq. rewrite (IH _ _ E H2). simpl. by rewrite app_assoc.
Qed.

Lemma run_app_inv ls1 ls2 s s2 tr :
  run (ls1 ++ ls2) s = Some (s2, tr) ->
  exists s1 tr1 tr2, run ls1 s = Some (s1, tr1) /\ run ls2 s1 = Some (s2, tr2)
    /\ tr = tr1 ++ tr2.
Proof.
  revert s tr. induction ls1 as [|l ls1 IH]; intros s tr H; simpl in *.
  - by exists s, [], tr.
  - destruct (step l s) as [[sa ea]|]; simpl in *; [|done].
    destruct (run (ls1 ++ ls2) sa) as [[sb eb]|] eqn:E; simpl in *; [|done].
    simplify_eq. destruct (IH _ _ E) as (s1 & tr1 & tr2 & -> & H2 & ->).
    exists s1, (ea ++ tr1), tr2. simpl. by rewrite app_assoc.
Qed.

Lemma reach_run ls s tr s' tr' :
  reach s tr -> run ls s = Some (s', tr') -> reach s' (tr ++ tr').
Proof.
  revert s tr tr'. induction ls as [|l ls IH]; intros s tr tr' R H; simpl in *.
  - simplify_eq. by rewrite app_nil_r.
  - destruct (step l s) as [[sa ea]|] eqn:E1; simpl in *; [|done].
    destruct (run ls sa) as [[sb eb]|] eqn:E2; simpl in *; [|done].
    simplify_eq. rewrite app_assoc. eapply IH; [|done]. by econstructor.
Qed.

Lemma run_reach ls s tr : run ls init = Some (s, tr) -> reach s tr.
Proof. intros H. exact (reach_run _ _ _ _ _ reach_init H). Qed.

(** ** Mutual exclusion *)

Ltac use_mutex M :=
  repeat match goal with
  | Hl : threads _ !! ?t = Some ?th |- _ =>
      let HH := fresh in
      pose proof (M t th Hl) as HH;
      try match goal with Hp : at_pc th = _ |- _ => rewrite Hp in HH end;
      sproj; try specialize (HH eq_refl);
      try match goal with Hc : in_critical (at_pc th) = true |- _ =>
            specialize (HH Hc) end;
      revert Hl
  end; intros.

(** ** The ways a reader can move *)

Lemma notification_log_logs d : Forall (fun e => is_log e = true) (notification_log d).
Proof. unfold notification_log. case_match; repeat constructor. Qed.

Lemma handle_line_cases r ln s s' ctl evs :
  handle_line r ln s = (s', ctl, evs) ->
  (s' = s /\ Forall (fun e => is_log e = true) evs)
  \/ (exists k h, pending_requests s !! k = Some h
        /\ futures s !! h <> Some Pending
        /\ s' = set_pending_requests (delete k (pending_requests s)) s
        /\ Forall (fun e => is_log e = true) evs)
  \/ (exists d v k h, ln = Parsed (JObj d) /\ dict_get "id" d = Some v
        /\ py_key v = KInt k
        /\ pending_requests s !! k = Some h
        /\ futures s !! h = Some Pending
        /\ ctl = Continue
        /\ s' = set_futures (<[h := Finished (resolution d)]> (futures s))
                  (set_pending_requests (delete k (pending_requests s)) s)
        /\ evs = EvResolve r k h (resolution d) :: notification_log d).
Proof.
  pose proof notification_log_logs as NL.
  unfold handle_line. intros H.
  repeat case_match; simplify_eq;
    try (left; split; [done|]; by repeat constructor);
    try (right; left; do 2 eexists; split_and!; [done|congruence|done|by auto]);
    right; right; do 4 eexists; split_and!; done.
Qed.

Lemma read_step_cases r s s' evs :
  step (Read r) s = Some (s', evs) ->
  exists rd rd' s1, readers s !! r = Some rd
    /\ s' = set_readers (<[r := rd']> (readers s)) s1
    /\ ((s1 = s /\ Forall (fun e => is_log e = true) evs)
        \/ (exists p pr ln rest, rd = LRead p /\ procs s !! p = Some pr
              /\ stdout pr = ln :: rest
              /\ s1 = set_procs (<[p := with_stdout rest pr]> (procs s)) s
              /\ Forall (fun e => is_log e = true) evs)
        \/ (exists k h, pending_requests s !! k = Some h
              /\ futures s !! h <> Some Pending
              /\ s1 = set_pending_requests (delete k (pending_requests s)) s
              /\ Forall (fun e => is_log e = true) evs)
        \/ (exists d v k h, rd = LHandle (Parsed (JObj d))
              /\ dict_get "id" d = Some v /\ py_key v = KInt k
              /\ pending_requests s !! k = Some h
              /\ futures s !! h = Some Pending
              /\ rd' = LTest
              /\ s1 = set_futures (<[h := Finished (resolution d)]> (futures s))
                        (set_pending_requests (delete k (pending_requests s)) s)
              /\ evs = EvResolve r k h (resolution d) :: notification_log d)).
Proof.
  unfold step. intros H.
  destruct (readers s !! r) as [rd|] eqn:Hrd; simpl in H; [|done].
  destruct (reader_step r rd s) as [[[rd' s1] evs']|] eqn:Hst; simpl in H; [|done].
  simplify_eq. exists rd, rd'.
  destruct rd; simpl in Hst.
  - repeat case_match; simplify_eq; eexists; (split; [done|]); (split; [done|]);
      left; by repeat constructor.
  - destruct (procs s !! p) as [pr|] eqn:Hpr; simpl in Hst; [|done].
    repeat case_match; simplify_eq;
      eexists; (split; [done|]); (split; [done|]).
    + left. by repeat constructor.
    + right; left. repeat eexists; [done..|by repeat constructor].
    + right; left. repeat eexists; [done..|by repeat constructor].
    + right; left. repeat eexists; [done..|by repeat constructor].
  - destruct (handle_line r ln s) as [[s2 ctl] ev2] eqn:E. simplify_eq.
    destruct (handle_line_cases _ _ _ _ _ _ E) as
      [[-> ?]|[(k & h & ? & ? & -> & ?)|(d & v & k & h & -> & ? & ? & ? & ? & -> & -> & ->)]].
    + eexists. split; [done|]. split; [done|]. by left.
    + eexists. split; [done|]. split; [done|]. right; right; left. by repeat eexists.
    + eexists. split; [done|]. split; [done|]. right; right; right. by repeat eexists.
  - done.
Qed.

Ltac read_inv H :=
  apply read_step_cases in H;
  destruct H as (?rd & ?rd' & ?s1 & ?Hrd & -> &
    [[-> ?Hlog]|[(?p & ?pr & ?ln & ?rest & -> & ?Hpr & ?Hout & -> & ?Hlog)
      |[(?k & ?h & ?Hk & ?Hh & -> & ?Hlog)
       |(?d & ?v & ?k & ?h & -> & ?Hid & ?Hkey & ?Hk & ?Hh & -> & -> & ->)]]]).

Lemma mutex_init : mutex init.
Proof. intros [|[|t]] th H; simplify_eq/=; done. Qed.

Lemma mutex_step l s s' evs : mutex s -> step l s = Some (s', evs) -> mutex s'.
Proof.
  intros M H. destruct l.
  - step_inv H; intros ?t ?th ?Hlk ?Hc; sproj; split_lookups; try done;
      use_mutex M; congruence.
  - step_inv H; intros ?t ?th ?Hlk ?Hc; sproj; split_lookups; try done;
      use_mutex M; congruence.
  - step_inv H; intros ?t ?th ?Hlk ?Hc; sproj; split_lookups; try done;
      use_mutex M; congruence.
  - step_inv H; intros ?t ?th ?Hlk ?Hc; sproj; split_lookups; try done;
      use_mutex M; congruence.
  - read_inv H; intros ?t ?th ?Hlk ?Hc; sproj; by eapply M.
  - step_inv H; intros ?t ?th ?Hlk ?Hc; sproj; split_lookups; try done;
      use_mutex M; congruence.
  - step_inv H; intros ?t ?th ?Hlk ?Hc; sproj; split_lookups; try done;
      use_mutex M; congruence.
Qed.

(** ** Request ids *)

Lemma allocs_app tr1 tr2 : allocs (tr1 ++ tr2) = allocs tr1 ++ allocs tr2.
Proof.
  induction tr1 as [|e tr1 IH]; [done|].
  destruct e; simpl; by rewrite ?IH.
Qed.

Lemma allocs_logs evs : Forall (fun e => is_log e = true) evs -> allocs evs = [].
Proof. induction 1 as [|e evs He _ IH]; [done|]. by destruct e. Qed.

Lemma sorted_snoc (l : list Z) (i : Z) :
  StronglySorted Z.lt l -> Forall (fun j => j < i) l -> StronglySorted Z.lt (l ++ [i]).
Proof.
  induction 1 as [|x l Hs IH Hx]; intros Hl; simpl.
  - repeat constructor.
  - inversion Hl; subst. constructor; [by apply IH|].
    apply Forall_app; split; [done|]. by repeat constructor.
Qed.

Lemma ids_inv_init : ids_inv init [].
Proof.
  split; simpl; try by constructor.
  all: intros [|[|t]] th c i H; simplify_eq/=; done.
Qed.

Ltac ids_facts I3 I4 :=
  repeat match goal with
  | Hl : threads _ !! ?t = Some ?th, Hp : at_pc ?th = GIncr _ _ |- _ =>
      let E := fresh in pose proof (I3 _ _ _ _ Hl Hp) as E; revert Hl
  | Hl : threads _ !! ?t = Some ?th, Hp : at_pc ?th = GReturn _ _ |- _ =>
      let E := fresh in let F := fresh in
      destruct (I4 _ _ _ _ Hl Hp) as [E F]; revert Hl
  end; intros.

Ltac below :=
  match goal with
  | H : Forall _ ?l |- Forall _ ?l =>
      eapply Forall_impl; [exact H|]; intros; simpl in *; lia
  end.

Ltac ids_close M I3 I4 :=
  try (exfalso; use_mutex M; congruence);
  ids_facts I3 I4; subst;
  repeat match goal with
  | |- _ /\ _ => split
  | |- StronglySorted _ (_ ++ [_]) => apply sorted_snoc
  | |- Forall _ (_ ++ [_]) => apply Forall_app; split; [|repeat constructor]
  end;
  try done; try lia; try below.

Lemma ids_inv_step l s tr s' evs :
  mutex s -> ids_inv s tr -> step l s = Some (s', evs) -> ids_inv s' (tr ++ evs).
Proof.
  intros M [I1 I2 I3 I4] H. destruct l.
  - step_inv H; split; rewrite ?allocs_app; sproj; rewrite ?app_nil_r; try done.
    all: try (intros ?t ?th ?c ?i ?Hlk ?Hp; split_lookups; simplify_eq; eauto 2).
    all: ids_close M I3 I4.
  - step_inv H; split; rewrite ?allocs_app; sproj; rewrite ?app_nil_r; try done.
    all: try (intros ?t ?th ?c ?i ?Hlk ?Hp; split_lookups; simplify_eq; eauto 2).
  - step_inv H; split; rewrite ?allocs_app; sproj; rewrite ?app_nil_r; try done.
    all: try (intros ?t ?th ?c ?i ?Hlk ?Hp; split_lookups; simplify_eq; eauto 2).
  - step_inv H; split; rewrite ?allocs_app; sproj; rewrite ?app_nil_r; try done.
    all: try (intros ?t ?th ?c ?i ?Hlk ?Hp; split_lookups; simplify_eq; eauto 2).
  - read_inv H; split; rewrite ?allocs_app; sproj;
      rewrite ?(allocs_logs _ Hlog), ?(allocs_logs _ (notification_log_logs _)),
        ?app_nil_r; try done.
  - step_inv H; split; rewrite ?allocs_app; sproj; rewrite ?app_nil_r; try done.
  - step_inv H; split; rewrite ?allocs_app; sproj; rewrite ?app_nil_r; try done.
Qed.

(** ** Registered waiters *)

Lemma registrations_app tr1 tr2 :
  registrations (tr1 ++ tr2) = registrations tr1 ++ registrations tr2.
Proof.
  induction tr1 as [|e tr1 IH]; [done|].
  destruct e; simpl; by rewrite ?IH.
Qed.

Lemma registrations_logs evs :
  Forall (fun e => is_log e = true) evs -> registrations evs = [].
Proof. induction 1 as [|e evs He _ IH]; [done|]. by destruct e. Qed.

Lemma cancel_all_lookup tbl fs h :
  (cancel_all tbl fs !! h = cancel <$> fs !! h /\ exists i, tbl !! i = Some h)
  \/ (cancel_all tbl fs !! h = fs !! h /\ forall i, tbl !! i <> Some h).
Proof.
  unfold cancel_all. revert tbl.
  apply (map_fold_weak_ind (fun r m =>
    (r !! h = cancel <$> fs !! h /\ exists i, m !! i = Some h)
    \/ (r !! h = fs !! h /\ forall i, m !! i <> Some h))).
  - right. split; [done|]. intros i. by rewrite lookup_empty.
  - intros i x m r Hi IH. destruct (decide (x = h)) as [->|Hne].
    + left. split; [|exists i; by rewrite lookup_insert_eq].
      rewrite list_lookup_alter_eq.
      destruct IH as [[-> _]|[-> _]]; [|done].
      destruct (fs !! h) as [[|o]|]; done.
    + rewrite list_lookup_alter_ne by done.
      destruct IH as [[E [j Hj]]|[E Hn]].
      * left. split; [done|]. exists j. rewrite lookup_insert_ne; [done|].
        intros ->. congruence.
      * right. split; [done|]. intros j.
        destruct (decide (i = j)) as [->|]; [rewrite lookup_insert_eq|rewrite lookup_insert_ne by done]; [congruence|done].
Qed.

Lemma cancel_all_length tbl fs : length (cancel_all tbl fs) = length fs.
Proof.
  unfold cancel_all. revert tbl.
  apply (map_fold_weak_ind (fun r _ => length r = length fs)); [done|].
  intros i x m r _ IH. by rewrite length_alter.
Qed.

Lemma futures_length_step l s s' evs :
  step l s = Some (s', evs) -> (length (futures s) <= length (futures s'))%nat.
Proof.
  intros H. destruct l; [step_inv H..|read_inv H|step_inv H|step_inv H]; sproj;
    rewrite ?length_app, ?cancel_all_length, ?length_insert; simpl; lia.
Qed.

Lemma reg_inv_init : reg_inv init [].
Proof.
  split; simpl; try by constructor.
  - intros i h H. by apply elem_of_nil in H.
  - intros [|[|t]] th c i H; simplify_eq/=; done.
  - intros [|[|t1]] t2 th1 th2 c1 c2 i H; simplify_eq/=; done.
  - intros i h H. by rewrite lookup_empty in H.
  - intros _ i h H. by rewrite lookup_empty in H.
  - intros i h o H. by rewrite lookup_empty in H.
Qed.

Lemma NoDup_snd_inj {A B} (l : list (A * B)) a1 a2 b :
  NoDup l.*2 -> (a1, b) ∈ l -> (a2, b) ∈ l -> a1 = a2.
Proof.
  induction l as [|[a' b'] l IH]; simpl; intros Hnd H1 H2.
  - by apply elem_of_nil in H1.
  - apply NoDup_cons in Hnd as [Hn Hnd].
    apply elem_of_cons in H1 as [?|H1], H2 as [?|H2]; simplify_eq; eauto.
    + destruct Hn. by eapply (list_elem_of_fmap_2' snd).
    + destruct Hn. by eapply (list_elem_of_fmap_2' snd).
Qed.

Lemma NoDup_fst_inj {A B} (l : list (A * B)) a b1 b2 :
  NoDup l.*1 -> (a, b1) ∈ l -> (a, b2) ∈ l -> b1 = b2.
Proof.
  induction l as [|[a' b'] l IH]; simpl; intros Hnd H1 H2.
  - by apply elem_of_nil in H1.
  - apply NoDup_cons in Hnd as [Hn Hnd].
    apply elem_of_cons in H1 as [?|H1], H2 as [?|H2]; simplify_eq; eauto.
    + destruct Hn. by eapply (list_elem_of_fmap_2' fst).
    + destruct Hn. by eapply (list_elem_of_fmap_2' fst).
Qed.

(** Rewrite the observations of [tr ++ evs] for the events of one step. *)
Ltac tr_norm :=
  rewrite ?allocs_app, ?registrations_app; sproj;
  try match goal with
  | Hlog : Forall _ ?evs |- _ =>
      rewrite ?(allocs_logs _ Hlog), ?(registrations_logs _ Hlog)
  end;
  rewrite ?(allocs_logs _ (notification_log_logs _)),
    ?(registrations_logs _ (notification_log_logs _)), ?app_nil_r.

Ltac all_steps H :=
  match type of H with
  | step ?l _ = _ =>
      destruct l; [step_inv H|step_inv H|step_inv H|step_inv H
                  |read_inv H|step_inv H|step_inv H]
  end; tr_norm.

Ltac len_norm :=
  rewrite ?length_app, ?cancel_all_length, ?length_insert in *;
  cbn [length] in *.

Ltac reg_intro :=
  intros M [I1 I2 I3 I4] [R1 R2 R3 R4 R5 R6 R7 R8] H;
  pose proof (futures_length_step _ _ _ _ H) as Hlen.

Lemma reg_alloc_step l s tr s' evs :
  mutex s -> ids_inv s tr -> reg_inv s tr -> step l s = Some (s', evs) ->
  forall i h, (i, h) ∈ registrations (tr ++ evs) ->
    i ∈ allocs (tr ++ evs) /\ (h < length (futures s'))%nat.
Proof.
  reg_intro. all_steps H; intros ?i ?h ?Hreg.
  all: try (destruct (R1 _ _ Hreg); split; [set_solver|len_norm; lia]).
  apply elem_of_app in Hreg as [Hreg|Hreg%list_elem_of_singleton]; simplify_eq.
  - destruct (R1 _ _ Hreg); split; [set_solver|len_norm; lia].
  - split; [by eapply R4|len_norm; lia].
Qed.

Lemma reg_ids_step l s tr s' evs :
  mutex s -> ids_inv s tr -> reg_inv s tr -> step l s = Some (s', evs) ->
  NoDup (registrations (tr ++ evs)).*1.
Proof.
  reg_intro. all_steps H; try done.
  rewrite fmap_app. apply NoDup_app. split; [done|]. split; [|apply NoDup_singleton].
  intros x Hx Hx'%list_elem_of_singleton. simplify_eq/=. by eapply R4.
Qed.

Lemma reg_handles_step l s tr s' evs :
  mutex s -> ids_inv s tr -> reg_inv s tr -> step l s = Some (s', evs) ->
  NoDup (registrations (tr ++ evs)).*2.
Proof.
  reg_intro. all_steps H; try done.
  rewrite fmap_app. apply NoDup_app. split; [done|]. split; [|apply NoDup_singleton].
  intros x Hx Hx'%list_elem_of_singleton. simplify_eq/=.
  apply list_elem_of_fmap in Hx as [[i' h'] [Heq Hx]]. simpl in Heq.
  destruct (R1 _ _ Hx). lia.
Qed.

Lemma allocs_below_not_in (l : list Z) (i : Z) :
  Forall (fun j => j < i) l -> i ∉ l.
Proof. intros Hl Hi. eapply Forall_forall in Hl; [|exact Hi]. simpl in Hl. lia. Qed.

Lemma reg_unregistered_step l s tr s' evs :
  mutex s -> ids_inv s tr -> reg_inv s tr -> step l s = Some (s', evs) ->
  forall t th c i, threads s' !! t = Some th -> at_pc th = SRegister c i ->
    i ∈ allocs (tr ++ evs) /\ i ∉ (registrations (tr ++ evs)).*1.
Proof.
  reg_intro. all_steps H; intros ?t ?th ?c ?i ?Hlk ?Hp; split_lookups; simplify_eq.
  all: try (edestruct R4 as [? ?]; [eassumption..|]; split; [set_solver|done]).
  - match goal with
    | Hl : threads _ !! _ = Some ?th, Hp : at_pc ?th = GReturn _ _ |- _ =>
        destruct (I4 _ _ _ _ Hl Hp) as [_ Hb]
    end.
    split; [set_solver|].
    intros Hin. apply list_elem_of_fmap in Hin as [[i' h'] [Heq Hin]].
    simpl in Heq; subst. destruct (R1 _ _ Hin) as [Ha _].
    by eapply allocs_below_not_in.
  - edestruct R4 as [? ?]; [eassumption..|]. split; [done|].
    rewrite fmap_app. apply not_elem_of_app. split; [done|].
    intros Hx%list_elem_of_singleton. simpl in Hx. subst.
    match goal with Hne : _ ≠ _ |- _ => apply Hne; eapply R5; eassumption end.
Qed.

Lemma reg_distinct_step l s tr s' evs :
  mutex s -> ids_inv s tr -> reg_inv s tr -> step l s = Some (s', evs) ->
  forall t1 t2 th1 th2 c1 c2 i,
    threads s' !! t1 = Some th1 -> threads s' !! t2 = Some th2 ->
    at_pc th1 = SRegister c1 i -> at_pc th2 = SRegister c2 i -> t1 = t2.
Proof.
  reg_intro.
  all_steps H; intros ?t1 ?t2 ?th1 ?th2 ?c1 ?c2 ?i ?Hlk1 ?Hlk2 ?Hp1 ?Hp2;
    split_lookups; simplify_eq; try done; try (eapply R5; eassumption).
  all: exfalso;
    match goal with
    | Hl : threads _ !! _ = Some ?th, Hp : at_pc ?th = GReturn _ _ |- _ =>
        destruct (I4 _ _ _ _ Hl Hp) as [_ Hb]
    end;
    edestruct R4 as [Ha _]; [eassumption..|];
    by eapply allocs_below_not_in.
Qed.

Lemma reg_pending_step l s tr s' evs :
  mutex s -> ids_inv s tr -> reg_inv s tr -> step l s = Some (s', evs) ->
  forall i h, pending_requests s' !! i = Some h ->
    (i, h) ∈ registrations (tr ++ evs).
Proof.
  reg_intro. all_steps H; intros ?i ?h ?Hlk; try (by eapply R6).
  all: try (apply lookup_delete_Some in Hlk as [_ Hlk]; by eapply R6).
  all: try (by rewrite lookup_empty in Hlk).
  apply lookup_insert_Some in Hlk as [[-> <-]|[_ Hlk]]; [set_solver|].
  apply elem_of_app. left. by eapply R6.
Qed.

Lemma clearing_false s :
  clearing s = false <->
  forall t th, threads s !! t = Some th -> at_pc th <> RClear.
Proof.
  unfold clearing. generalize (threads s). clear s.
  induction l as [|th l IH]; simpl.
  - split; [|done]. intros _ t th H. by rewrite lookup_nil in H.
  - rewrite orb_false_iff, IH. split.
    + intros [Hth Hl] [|t] th' H; simplify_eq/=; [|by eapply Hl].
      intros E. by rewrite E in Hth.
    + intros H. split; [|intros t th' Ht; by apply (H (S t))].
      specialize (H 0%nat th eq_refl). by destruct (at_pc th).
Qed.

(** No restart is between its loop and its clear before a step, if none
    is after it and the step is not the clear itself. *)
Ltac was_not_clearing Hnc :=
  let t0 := fresh "t" in
  let th0 := fresh "th" in
  let Ht0 := fresh "Ht" in
  let Hp0 := fresh "Hp" in
  apply clearing_false; intros t0 th0 Ht0 Hp0; sproj;
  first
    [ by eapply Hnc
    | eapply Hnc; [by apply lookup_app_l_Some|done]
    | match goal with
      | Hl : threads ?s !! ?t = Some ?th |- _ =>
          destruct (decide (t0 = t)) as [->|];
          [assert (th0 = th) by congruence; subst th0; congruence
          |eapply (Hnc t0); [by rewrite list_lookup_insert_ne|done]]
      end ].

Lemma reg_fresh_step l s tr s' evs :
  mutex s -> ids_inv s tr -> reg_inv s tr -> step l s = Some (s', evs) ->
  clearing s' = false -> forall i h, pending_requests s' !! i = Some h ->
    futures s' !! h = Some Pending.
Proof.
  reg_intro. all_steps H; intros ?Hnc ?i ?h ?Hlk.
  all: try (by rewrite lookup_empty in Hlk).
  all: rewrite clearing_false in Hnc; sproj.
  all: try (exfalso; eapply Hnc; [by eapply insert_lookup_same|done]).
  all: match type of R7 with
       | clearing ?s0 = false -> _ =>
           assert (clearing s0 = false) as Hq by was_not_clearing Hnc
       end; specialize (R7 Hq).
  all: try (by eapply R7).
  all: try (apply lookup_delete_Some in Hlk as [Hne Hlk]).
  all: try (by eapply R7).
  - apply lookup_insert_Some in Hlk as [[-> <-]|[_ Hlk]].
    + by rewrite list_lookup_middle.
    + apply lookup_app_l_Some. by eapply R7.
  - rewrite list_lookup_insert_ne; [by eapply R7|].
    intros ->. apply Hne. eapply (NoDup_snd_inj _ _ _ _ R3); by eapply R6.
Qed.

Lemma reg_failed_step l s tr s' evs :
  mutex s -> ids_inv s tr -> reg_inv s tr -> step l s = Some (s', evs) ->
  forall i h o, pending_requests s' !! i = Some h ->
    futures s' !! h = Some (Finished o) -> o = Raised ServerRestarted.
Proof.
  reg_intro. all_steps H; intros ?i ?h ?o ?Hlk ?Hf; sproj.
  all: try (by rewrite lookup_empty in Hlk).
  all: try (by eapply R8).
  all: try (apply lookup_delete_Some in Hlk as [Hne Hlk]).
  all: try (by eapply R8).
  - apply lookup_insert_Some in Hlk as [[-> <-]|[_ Hlk]].
    + by rewrite list_lookup_middle in Hf.
    + eapply R8; [done|]. destruct (R1 _ _ (R6 _ _ Hlk)) as [_ Hlt].
      by rewrite lookup_app_l in Hf.
  - destruct (cancel_all_lookup (pending_requests s) (futures s) h)
      as [[E _]|[E _]]; rewrite E in Hf; [|by eapply R8].
    destruct (futures s !! h) as [[|o']|] eqn:Hh; simplify_eq/=;
      [done|by eapply R8].
  - rewrite list_lookup_insert_ne in Hf; [by eapply R8|].
    intros ->. apply Hne. eapply (NoDup_snd_inj _ _ _ _ R3); by eapply R6.
Qed.

Lemma reg_inv_step l s tr s' evs :
  mutex s -> ids_inv s tr -> reg_inv s tr -> step l s = Some (s', evs) ->
  reg_inv s' (tr ++ evs).
Proof.
  intros M I R H. split.
  - by eapply reg_alloc_step.
  - by eapply reg_ids_step.
  - by eapply reg_handles_step.
  - by eapply reg_unregistered_step.
  - by eapply reg_distinct_step.
  - by eapply reg_pending_step.
  - by eapply reg_fresh_step.
  - by eapply reg_failed_step.
Qed.

(** Every reachable state satisfies the invariants. *)
Lemma reach_invariants s tr :
  reach s tr -> mutex s /\ ids_inv s tr /\ reg_inv s tr.
Proof.
  induction 1 as [|s tr l s' evs _ (M & I & R) H].
  - split; [apply mutex_init|]. split; [apply ids_inv_init|apply reg_inv_init].
  - split; [by eapply mutex_step|].
    split; [by eapply ids_inv_step|by eapply reg_inv_step].
Qed.


(** ** Futures, restarts and the wire *)

Lemma count_app P tr1 tr2 : count P (tr1 ++ tr2) = (count P tr1 + count P tr2)%nat.
Proof. induction tr1 as [|e tr1 IH]; simpl; [done|]. rewrite IH. lia. Qed.

Lemma count_logs P evs :
  (forall l, P (EvLog l) = false) ->
  Forall (fun e => is_log e = true) evs -> count P evs = 0%nat.
Proof.
  intros HP. induction 1 as [|e evs He _ IH]; [done|].
  destruct e; simplify_eq/=. by rewrite HP, IH.
Qed.

(** *** Finished futures *)





(** *** Restarts and what causes them *)

Ltac count_logs_norm :=
  repeat match goal with
  | Hlog : Forall _ ?evs |- context [count ?P ?evs] =>
      rewrite (count_logs P evs) by done
  | |- context [count ?P (notification_log ?d)] =>
      rewrite (count_logs P (notification_log d)) by (done || apply notification_log_logs)
  end.

Ltac count_thread :=
  match goal with
  | Hl : threads ?s !! ?t = Some ?th
    |- context [<[?t := _]> (threads ?s) !! ?t1] =>
      destruct (decide (t1 = t)) as [->|];
      [rewrite list_lookup_insert_eq by (by eapply lookup_lt_Some);
       rewrite Hl in *
      |rewrite list_lookup_insert_ne by done]
  end;
  repeat match goal with
  | Hp : at_pc _ = _ |- _ => rewrite Hp in *; clear Hp
  end;
  sproj; rewrite ?bool_decide_eq_true_2, ?bool_decide_eq_false_2 by done.

Lemma count_inv_step l s tr s' evs :
  count_inv s tr -> step l s = Some (s', evs) -> count_inv s' (tr ++ evs).
Proof.
  intros C H t0. revert C.
  all_steps H; intros C; specialize (C t0); unfold restart_due_of in *;
    rewrite ?count_app; sproj; count_logs_norm.
  all: try lia.
  all: try (count_thread; lia).
  destruct (threads s !! t0) as [th|] eqn:E.
  - by rewrite (lookup_app_l_Some _ _ _ _ E).
  - apply lookup_ge_None in E. rewrite lookup_app_r by done.
    destruct (t0 - length (threads s))%nat as [|n]; simpl; lia.
Qed.

Lemma count_inv_reach s tr : reach s tr -> count_inv s tr.
Proof.
  induction 1 as [|s tr l s' evs _ IH H].
  - intros [|[|t]]; done.
  - by eapply count_inv_step.
Qed.

(** *** What reaches the subprocess *)

Lemma wire_inv_init : wire_inv init [].
Proof.
  split.
  - intros [|[|t]] th c i h H; simplify_eq/=; done.
  - intros p pr H; simplify_eq/=.
  - intros [|p] pr m H; simplify_eq/=.
Qed.

Lemma elem_of_snoc_l {A} (l : list A) (x y : A) : x ∈ l -> x ∈ l ++ [y].
Proof. intros. apply elem_of_app. by left. Qed.

Lemma registered_request_mono tr evs m :
  registered_request tr m -> registered_request (tr ++ evs) m.
Proof.
  intros [->|(t & c & i & h & -> & Hin)]; [by left|right].
  exists t, c, i, h. split; [done|]. apply elem_of_app. by left.
Qed.

Ltac old_waiter W1 :=
  first [ by eapply W1
        | eapply W1; [eassumption|];
          match goal with Hp : at_pc _ = _ |- _ => by rewrite Hp end ].

Lemma wire_waiter_step l s tr s' evs :
  wire_inv s tr -> step l s = Some (s', evs) ->
  forall t th c i h, threads s' !! t = Some th ->
    waiter_of (at_pc th) = Some (c, i, h) -> EvRegister t i h ∈ tr ++ evs.
Proof.
  intros [W1 W2 W3] H.
  all_steps H; intros ?t ?th ?c ?i ?h ?Hlk ?Hw; split_lookups; simplify_eq;
    try done.
  all: try old_waiter W1.
  all: try (apply elem_of_app; left; old_waiter W1).
  apply elem_of_app; right. apply list_elem_of_singleton. done.
Qed.

Lemma wire_received_step l s tr s' evs :
  wire_inv s tr -> step l s = Some (s', evs) ->
  forall p pr m, procs s' !! p = Some pr ->
    m ∈ stdin pr ++ stdin_buffer pr -> registered_request (tr ++ evs) m.
Proof.
  intros [W1 W2 W3] H.
  all_steps H; intros ?p ?pr ?m ?Hlk ?Hm; split_lookups; simplify_eq;
    try (apply registered_request_mono); try (by eapply W3).
  all: cbn [stdin stdin_buffer with_stdin_buffer delivered fresh_process] in Hm.
  all: rewrite ?app_nil_r in Hm; try (by eapply W3).
  all: try (by apply elem_of_nil in Hm).
  all: rewrite app_assoc in Hm;
    apply elem_of_app in Hm as [Hm|Hm%list_elem_of_singleton];
    [by eapply W3|subst m].
  - right. do 4 eexists. split; [done|]. eapply W1; [eassumption|].
    match goal with Hp : at_pc _ = _ |- _ => by rewrite Hp end.
  - by left.
Qed.

(** The thread that is flushing is still there after a step of another
    thread, and a step of its own leaves the flushing points only by
    flushing. *)
Ltac keep_flusher M :=
  match goal with
  | Hlk1 : write_lock ?s = Some ?t1, Hth1 : threads ?s !! ?t1 = Some ?th1,
    Hfl1 : flushing (at_pc ?th1) = Some ?m1 |- _ =>
      right; exists t1, th1, m1;
      try match goal with
      | Hl : threads s !! ?t = Some ?th, Hp : at_pc ?th = _ |- _ =>
          destruct (decide (t1 = t)) as [->|];
          [assert (th1 = th) by congruence; subst th1;
           rewrite Hp in Hfl1; try discriminate Hfl1
          |rewrite list_lookup_insert_ne by done]
      end;
      try (split_and!; try done; try congruence;
           exfalso; use_mutex M; congruence)
  end.

(** The thread that writes holds the lock, so the buffer it writes into
    is empty and holds exactly its line afterwards. *)
Ltac own_write M W2 :=
  match goal with
  | Ht : threads ?s !! ?t = Some ?th, Hp : at_pc ?th = _,
    Hpr : procs ?s !! _ = Some ?pr |- _ =>
      assert (write_lock s = Some t) as Hme
        by (eapply M; [exact Ht|]; by rewrite Hp);
      assert (stdin_buffer pr = []) as Hempty
        by (edestruct W2 as [Hb|(t1 & th1 & m1 & Hlk1 & Hth1 & Hfl1 & Hb1)];
              [done..|]; assert (t1 = t) by congruence; subst t1;
            assert (th1 = th) by congruence; subst th1;
            rewrite Hp in Hfl1; discriminate Hfl1);
      right; eexists t, _, _; split; [done|];
      split; [apply list_lookup_insert_eq; by eapply lookup_lt_Some|];
      split; [reflexivity|]; simpl; by rewrite Hempty
  end.

Lemma wire_buffer_step l s tr s' evs :
  mutex s -> wire_inv s tr -> step l s = Some (s', evs) ->
  forall p pr, proc s' = Some p -> procs s' !! p = Some pr ->
    alive pr = true ->
    stdin_buffer pr = []
    \/ exists t th m, write_lock s' = Some t /\ threads s' !! t = Some th
         /\ flushing (at_pc th) = Some m /\ stdin_buffer pr = [m].
Proof.
  intros M [W1 W2 W3] H.
  all_steps H; intros ?p ?pr ?Hp ?Hlk ?Hal; split_lookups; simplify_eq.
  all: try (edestruct W2 as [Hb|(t1 & th1 & m1 & Hlk1 & Hth1 & Hfl1 & Hb1)];
            [first [done|eassumption]..|by left|];
            solve [congruence|keep_flusher M]).
  all: try (left; reflexivity).
  all: try (exfalso;
            match goal with
            | Hl : procs ?s !! length (procs ?s) = Some _ |- _ =>
                apply lookup_lt_Some in Hl; lia
            | Ha : alive ?pr = true, Hb : alive ?pr || _ = false |- _ =>
                rewrite Ha in Hb; discriminate Hb
            end).
  - (* stdin.write of a request *) own_write M W2.
  - (* stdin.write of the notification *) own_write M W2.
  - (* a new caller thread *)
    edestruct W2 as [Hb|(t1 & th1 & m1 & Hlk1 & Hth1 & Hfl1 & Hb1)];
      [done..|by left|].
    right. exists t1, th1, m1. split; [done|].
    split; [by apply lookup_app_l_Some|done].
Qed.

Lemma wire_inv_step l s tr s' evs :
  mutex s -> wire_inv s tr -> step l s = Some (s', evs) ->
  wire_inv s' (tr ++ evs).
Proof.
  intros M W H. split.
  - by eapply wire_waiter_step.
  - by eapply wire_buffer_step.
  - by eapply wire_received_step.
Qed.

Lemma wire_inv_reach s tr : reach s tr -> wire_inv s tr.
Proof.
  induction 1 as [|s tr l s' evs R IH H]; [apply wire_inv_init|].
  eapply wire_inv_step; [|done..]. by apply reach_invariants in R as [M _].
Qed.

(** ** Request ids: the claims *)

Lemma allocs_in_sublist mark g tr : allocs_in mark g tr `sublist_of` allocs tr.
Proof.
  revert g. induction tr as [|e tr IH]; intros g; simpl; [constructor|].
  destruct (mark e).
  - destruct g as [|g]; destruct e; simpl;
      try apply sublist_nil_l; try apply sublist_cons; apply IH.
  - destruct e, g; simpl; try apply IH; try apply sublist_cons, IH.
    by apply sublist_skip.
Qed.

Lemma sorted_sublist (k l : list Z) :
  k `sublist_of` l -> StronglySorted Z.lt l -> StronglySorted Z.lt k.
Proof.
  induction 1 as [|x k l Hs IH|x k l Hs IH]; intros Hl.
  - constructor.
  - apply StronglySorted_inv in Hl as [Hl Hx]. constructor; [by apply IH|].
    apply Forall_forall. intros y Hy.
    eapply Forall_forall in Hx; [exact Hx|]. by eapply elem_of_sublist.
  - apply StronglySorted_inv in Hl as [Hl _]. by apply IH.
Qed.

Lemma sorted_NoDup (l : list Z) : StronglySorted Z.lt l -> NoDup l.
Proof.
  induction 1 as [|x l Hs IH Hx]; constructor; [|done].
  intros Hin. eapply Forall_forall in Hx; [|exact Hin]. lia.
Qed.

Lemma next_id_step l s s' evs :
  step l s = Some (s', evs) ->
  next_id s' = next_id s
  \/ exists t th c i, l = Run t /\ threads s !! t = Some th
       /\ at_pc th = GIncr c i /\ next_id s' = next_id s + 1.
Proof.
  intros H. all_steps H; sproj; try (by left).
  right. by repeat eexists.
Qed.

(** C9: the id counter is never reset, also not by a restart: over the
    whole life of a client the ids handed out by [_get_id] are strictly
    increasing in the order they were handed out, hence pairwise distinct,
    all of them are below the counter, and no transition (of a restart or
    of anything else) makes the counter smaller. *)
Theorem ids_increase_across_generations ls s tr :
  run ls init = Some (s, tr) ->
  StronglySorted Z.lt (allocs tr)
  /\ NoDup (allocs tr)
  /\ Forall (fun i => i < next_id s) (allocs tr)
  /\ forall l s' evs, step l s = Some (s', evs) -> next_id s <= next_id s'.
Proof.
  intros Hrun. apply run_reach, reach_invariants in Hrun as (_ & [I1 I2 _ _] & _).
  split; [done|]. split; [by apply sorted_NoDup|]. split; [done|].
  intros l s' evs H.
  destruct (next_id_step _ _ _ _ H) as [->|(t & th & c & i & _ & _ & _ & ->)]; lia.
Qed.

(** C6: within a generation (whichever event [mark] is taken to open the
    next one) the ids handed out are strictly increasing in allocation
    order and pairwise distinct; at most one thread is inside the block of
    [_get_id]; and the counter changes only by the increment of l.160,
    executed by the thread that holds [_write_lock]. *)
Theorem ids_distinct_within_generation ls s tr :
  run ls init = Some (s, tr) ->
  (forall mark g,
     StronglySorted Z.lt (allocs_in mark g tr) /\ NoDup (allocs_in mark g tr))
  /\ (forall t1 t2 th1 th2,
        threads s !! t1 = Some th1 -> threads s !! t2 = Some th2 ->
        in_get_id (at_pc th1) = true -> in_get_id (at_pc th2) = true ->
        t1 = t2)
  /\ (forall l s' evs, step l s = Some (s', evs) -> next_id s' <> next_id s ->
        exists t th c i, l = Run t /\ threads s !! t = Some th
          /\ at_pc th = GIncr c i /\ write_lock s = Some t
          /\ next_id s' = next_id s + 1).
Proof.
  intros Hrun. apply run_reach, reach_invariants in Hrun as (M & [I1 I2 _ _] & _).
  split; [|split].
  - intros mark g.
    assert (StronglySorted Z.lt (allocs_in mark g tr)) as Hs
      by (eapply sorted_sublist; [apply allocs_in_sublist|done]).
    split; [done|by apply sorted_NoDup].
  - intros t1 t2 th1 th2 H1 H2 G1 G2.
    assert (write_lock s = Some t1) as E1
      by (eapply M; [done|]; by destruct (at_pc th1)).
    assert (write_lock s = Some t2) as E2
      by (eapply M; [done|]; by destruct (at_pc th2)).
    congruence.
  - intros l s' evs H Hne.
    destruct (next_id_step _ _ _ _ H) as [?|(t & th & c & i & -> & Ht & Hp & ->)];
      [done|].
    exists t, th, c, i. split_and!; try done.
    eapply M; [done|]. by rewrite Hp.
Qed.

(** ** The reader and the waiters: the claims *)

Lemma handle_line_keyed r d v k s :
  dict_get "id" d = Some v -> py_key v = KInt k ->
  handle_line r (Parsed (JObj d)) s =
    match pending_requests s !! k with
    | None => (s, Continue, notification_log d)
    | Some h =>
        match futures s !! h with
        | Some Pending =>
            (set_futures (<[h := Finished (resolution d)]> (futures s))
               (set_pending_requests (delete k (pending_requests s)) s),
             Continue, EvResolve r k h (resolution d) :: notification_log d)
        | _ => (set_pending_requests (delete k (pending_requests s)) s,
                Continue, notification_log d)
        end
    end.
Proof.
  intros Hid Hk. unfold handle_line. rewrite Hid.
  destruct v; try discriminate Hk; rewrite Hk; done.
Qed.

Lemma step_read_handle r ln s :
  readers s !! r = Some (LHandle ln) ->
  step (Read r) s =
    let '(s', ctl, evs) := handle_line r ln s in
    Some (set_readers (<[r := match ctl with Continue => LTest | Break => LExit end]>
                         (readers s')) s', evs).
Proof.
  intros Hr. unfold step. rewrite Hr. simpl.
  by destruct (handle_line r ln s) as [[s' ctl] evs].
Qed.

Lemma notification_log_with_id d v :
  dict_get "id" d = Some v -> notification_log d = [].
Proof.
  intros H. unfold notification_log, dict_has. rewrite H.
  by rewrite andb_false_r.
Qed.

(** A response for a registered, pending waiter. *)
Lemma step_read_resolves r d v k h s :
  readers s !! r = Some (LHandle (Parsed (JObj d))) ->
  dict_get "id" d = Some v -> py_key v = KInt k ->
  pending_requests s !! k = Some h -> futures s !! h = Some Pending ->
  step (Read r) s = Some (resolved r d k h s, [EvResolve r k h (resolution d)]).
Proof.
  intros Hr Hid Hk Hp Hf. rewrite (step_read_handle _ _ _ Hr).
  rewrite (handle_line_keyed _ _ _ _ _ Hid Hk), Hp, Hf.
  by rewrite (notification_log_with_id _ _ Hid).
Qed.

(** A response for an id nobody waits for. *)
Lemma step_read_unknown r d v k s :
  readers s !! r = Some (LHandle (Parsed (JObj d))) ->
  dict_get "id" d = Some v -> py_key v = KInt k ->
  pending_requests s !! k = None ->
  step (Read r) s = Some (set_readers (<[r := LTest]> (readers s)) s, []).
Proof.
  intros Hr Hid Hk Hp. rewrite (step_read_handle _ _ _ Hr).
  rewrite (handle_line_keyed _ _ _ _ _ Hid Hk), Hp.
  by rewrite (notification_log_with_id _ _ Hid).
Qed.

(** A response for an id whose waiter is already finished: the waiter
    only leaves the table. *)
Lemma step_read_finished r d v k h s :
  readers s !! r = Some (LHandle (Parsed (JObj d))) ->
  dict_get "id" d = Some v -> py_key v = KInt k ->
  pending_requests s !! k = Some h -> futures s !! h <> Some Pending ->
  step (Read r) s
    = Some (set_readers (<[r := LTest]> (readers s))
              (set_pending_requests (delete k (pending_requests s)) s), []).
Proof.
  intros Hr Hid Hk Hp Hf. rewrite (step_read_handle _ _ _ Hr).
  rewrite (handle_line_keyed _ _ _ _ _ Hid Hk), Hp.
  rewrite (notification_log_with_id _ _ Hid).
  by destruct (futures s !! h) as [[|o]|].
Qed.

Lemma registration_in_trace tr1 t i h tr2 :
  (i, h) ∈ registrations (tr1 ++ EvRegister t i h :: tr2).
Proof.
  rewrite registrations_app. apply elem_of_app. right. simpl.
  apply elem_of_cons. by left.
Qed.

Lemma registration_position tr1 tr2 tr1' tr2' t t' i h h' :
  tr1 ++ EvRegister t i h :: tr2 = tr1' ++ EvRegister t' i h' :: tr2' ->
  NoDup (registrations (tr1 ++ EvRegister t i h :: tr2)).*1 ->
  tr1 = tr1'.
Proof.
  revert tr1'. induction tr1 as [|e tr1 IH]; intros [|e' tr1'] E Hnd;
    simpl in *; simplify_eq; try done.
  - apply NoDup_cons in Hnd as [Hn _]. destruct Hn.
    apply (list_elem_of_fmap_2' fst _ (i, h')); [|done].
    apply registration_in_trace.
  - apply NoDup_cons in Hnd as [Hn _]. destruct Hn.
    apply (list_elem_of_fmap_2' fst _ (i, h)); [|done].
    apply registration_in_trace.
  - f_equal. eapply IH; [done|].
    destruct e'; simpl in Hnd; try done. by apply NoDup_cons in Hnd as [_ ?].
Qed.

(** C1: a response whose id was registered in a retired generation changes
    no waiter registered in the current one.  The generations of a run are
    cut by the events that satisfy [mark] (the entry into
    [_restart_subprocess], the clearing of the table or the spawn of the
    next subprocess); [X] was registered in an earlier generation than the
    current one, [h'] is a waiter registered in the current generation,
    and the reader handles a line that carries [X]. *)
Theorem stale_response_resolves_no_live_waiter
    ls s tr mark g X h Y h' r d v :
  run ls init = Some (s, tr) ->
  registered_in mark g X h tr ->
  (g < count mark tr)%nat ->
  registered_in mark (count mark tr) Y h' tr ->
  readers s !! r = Some (LHandle (Parsed (JObj d))) ->
  dict_get "id" d = Some v -> py_key v = KInt X ->
  exists s' evs, step (Read r) s = Some (s', evs)
    /\ futures s' !! h' = futures s !! h'
    /\ count (resolves h') evs = 0%nat.
Proof.
  intros Hrun (t & tr1 & tr2 & E1 & G1) Hg (t' & tr1' & tr2' & E2 & G2) Hr Hid Hk.
  apply run_reach, reach_invariants in Hrun as (_ & _ & [R1 R2 R3 _ _ R6 _ _]).
  assert (h <> h') as Hne.
  { intros <-.
    assert (X = Y) as <-.
    { eapply (NoDup_snd_inj _ _ _ _ R3).
      - rewrite E1. apply registration_in_trace.
      - rewrite E2. apply registration_in_trace. }
    assert (tr1 = tr1') as <-; [|lia].
    eapply registration_position; [by rewrite <- E1, <- E2|by rewrite <- E1]. }
  destruct (pending_requests s !! X) as [h0|] eqn:Hp.
  - assert (h0 = h) as ->.
    { eapply (NoDup_fst_inj _ _ _ _ R2); [by eapply R6|].
      rewrite E1. apply registration_in_trace. }
    destruct (futures s !! h) as [[|o]|] eqn:Hf.
    + eexists _, _. split; [by eapply step_read_resolves; eauto|].
      split; [|by simpl; rewrite bool_decide_eq_false_2].
      simpl. by rewrite list_lookup_insert_ne.
    + eexists _, _.
      split; [eapply step_read_finished; eauto; by rewrite Hf|done].
    + eexists _, _.
      split; [eapply step_read_finished; eauto; by rewrite Hf|done].
  - eexists _, _. split; [by eapply step_read_unknown|]. done.
Qed.




Lemma resolved_future r d k h s :
  is_Some (futures s !! h) ->
  futures (resolved r d k h s) !! h = Some (Finished (resolution d)).
Proof.
  intros [f Hf]. simpl. apply list_lookup_insert_eq. by eapply lookup_lt_Some.
Qed.




(** ** Lines that are not JSON *)


Lemma step_read_take r p pr ln rest s :
  readers s !! r = Some (LRead p) -> procs s !! p = Some pr ->
  stdout pr = ln :: rest -> ln <> Undecodable ->
  step (Read r) s =
    Some (set_readers (<[r := LHandle ln]> (readers s))
            (set_procs (<[p := with_stdout rest pr]> (procs s)) s), []).
Proof.
  intros Hr Hp Ho Hln. unfold step. rewrite Hr. simpl. rewrite Hp. simpl.
  rewrite Ho. by destruct ln.
Qed.



Lemma run_cons l ls s s1 e1 s2 e2 e :
  step l s = Some (s1, e1) -> run ls s1 = Some (s2, e2) -> e = e1 ++ e2 ->
  run (l :: ls) s = Some (s2, e).
Proof. intros H1 H2 ->. simpl. rewrite H1. simpl. by rewrite H2. Qed.



(** ** Single statements of a caller thread *)

Lemma step_run t th s th' s' evs :
  threads s !! t = Some th -> thread_step t th s = Some (th', s', evs) ->
  step (Run t) s = Some (set_threads (<[t := th']> (threads s')) s', evs).
Proof. intros Ht Hs. unfold step. rewrite Ht. simpl. by rewrite Hs. Qed.

Lemma step_timeout_handler t th c i h s :
  threads s !! t = Some th -> at_pc th = STimeout c i h ->
  exists s', step (Run t) s = Some (s', [EvLog (LogTimedOut i (method c))])
    /\ pending_requests s' !! i = None
    /\ futures s' = futures s
    /\ threads s' !! t = Some (Thread RStop (KTimeout c :: stack th)).
Proof.
  intros Ht Hp. eexists. split.
  - eapply step_run; [done|]. unfold thread_step. by rewrite Hp.
  - split; [apply lookup_delete_eq|]. split; [done|]. by eapply insert_lookup_same.
Qed.

Lemma step_restart_begins t th s :
  threads s !! t = Some th -> at_pc th = RStop ->
  exists s', step (Run t) s = Some (s', [EvLog LogRestarting; EvRestart t])
    /\ stop_event s' = true
    /\ threads s' !! t = Some (Thread RTerminate (stack th)).
Proof.
  intros Ht Hp. eexists. split.
  - eapply step_run; [done|]. unfold thread_step. by rewrite Hp.
  - split; [done|]. by eapply insert_lookup_same.
Qed.

Lemma step_start_returns t th s :
  threads s !! t = Some th -> at_pc th = IRelease ->
  exists s', step (Run t) s
      = Some (s', EvLog LogInitialized :: (return_from_start t (stack th)).2)
    /\ write_lock s' = None
    /\ threads s' !! t = Some (return_from_start t (stack th)).1.
Proof.
  intros Ht Hp.
  exists (set_threads (<[t := (return_from_start t (stack th)).1]> (threads s))
            (set_write_lock None s)).
  split.
  - unfold step. rewrite Ht. simpl. unfold thread_step. rewrite Hp.
    by destruct (return_from_start t (stack th)).
  - split; [done|]. simpl. by eapply insert_lookup_same.
Qed.

Lemma step_wait_raises t th c i h e s :
  threads s !! t = Some th -> at_pc th = SWait c i h ->
  futures s !! h = Some (Finished (Raised e)) ->
  exists s',
    run [Run t; Run t] s
      = Some (s', [EvLog (LogCallError (method c) e); EvEnd t (Raised e)])
    /\ threads s' !! t = Some (Thread (Ended (Raised e)) []).
Proof.
  intros Ht Hp Hf. eexists. split.
  - eapply run_cons;
      [eapply step_run; [done|]; unfold thread_step; by rewrite Hp, Hf
      | |reflexivity].
    eapply run_cons;
      [eapply step_run; [simpl; by eapply insert_lookup_same|];
       unfold thread_step; reflexivity
      |reflexivity|reflexivity].
  - simpl. eapply insert_lookup_same, insert_lookup_same. done.
Qed.






(** ** Deadlines, dead subprocesses and restarts: the claims *)

(** C3 (amended): restarts are not collapsed.  Every thread has begun as
    many restarts as deadlines have elapsed in it and dead subprocesses it
    has found (less the one it is about to begin).  The handler of a
    deadline removes the caller's own waiter and calls
    [_restart_subprocess]; when that returns the caller gets TimeoutError.
    A caller whose future another thread's restart has failed gets
    "Server restarted" and begins no restart. *)
Theorem every_deadline_begins_its_own_restart ls s tr :
  run ls init = Some (s, tr) ->
  (forall t, (count (restart_by t) tr + restart_due_of s t
              = count (deadline_of t) tr + count (died_by t) tr)%nat)
  /\ (forall t th c i h, threads s !! t = Some th -> at_pc th = STimeout c i h ->
        exists s1 s2,
          step (Run t) s = Some (s1, [EvLog (LogTimedOut i (method c))])
          /\ pending_requests s1 !! i = None
          /\ threads s1 !! t = Some (Thread RStop (KTimeout c :: stack th))
          /\ step (Run t) s1 = Some (s2, [EvLog LogRestarting; EvRestart t]))
  /\ (forall t th c ks, threads s !! t = Some th -> at_pc th = IRelease ->
        stack th = KTimeout c :: ks ->
        exists s',
          step (Run t) s
            = Some (s', [EvLog LogInitialized;
                         EvEnd t (Raised (TimeoutError (method c)))])
          /\ threads s' !! t
             = Some (Thread (Ended (Raised (TimeoutError (method c)))) []))
  /\ (forall t th c i h, threads s !! t = Some th -> at_pc th = SWait c i h ->
        futures s !! h = Some (Finished (Raised ServerRestarted)) ->
        exists s',
          run [Run t; Run t] s
            = Some (s', [EvLog (LogCallError (method c) ServerRestarted);
                         EvEnd t (Raised ServerRestarted)])
          /\ threads s' !! t = Some (Thread (Ended (Raised ServerRestarted)) [])).
Proof.
  intros Hrun. split_and!.
  - by apply count_inv_reach, (run_reach ls).
  - intros t th c i h Ht Hp.
    destruct (step_timeout_handler _ _ _ _ _ _ Ht Hp) as (s1 & H1 & Hpend & _ & Ht1).
    destruct (step_restart_begins _ _ _ Ht1 eq_refl) as (s2 & H2 & _).
    by exists s1, s2.
  - intros t th c ks Ht Hp Hk.
    destruct (step_start_returns _ _ _ Ht Hp) as (s' & H1 & _ & Ht1).
    rewrite Hk in H1, Ht1. by exists s'.
  - intros t th c i h Ht Hp Hf. by eapply step_wait_raises.
Qed.


(** ** The wire: the claims *)

Lemma in_logs e evs :
  Forall (fun e => is_log e = true) evs -> e ∈ evs -> is_log e = true.
Proof. intros Hl Hin. by eapply Forall_forall in Hl. Qed.

Ltac pick_event Hin :=
  repeat (apply elem_of_cons in Hin as [Hin|Hin]; [try discriminate Hin|]);
  try (by apply elem_of_nil in Hin).

Lemma write_event_step l s s' evs t p m :
  step l s = Some (s', evs) -> EvWrite t p m ∈ evs ->
  exists th, threads s !! t = Some th /\ proc s = Some p
    /\ ((exists c i h, at_pc th = SWrite c i h /\ m = request c i)
        \/ (at_pc th = IWrite /\ m = initialized_notification)).
Proof.
  intros H Hin. revert Hin.
  all_steps H; intros Hin; pick_event Hin; simplify_eq.
  all: try (apply (in_logs _ _ Hlog) in Hin; discriminate Hin).
  all: try (apply (in_logs _ _ (notification_log_logs _)) in Hin; discriminate Hin).
  - eexists. split; [done|]. split; [done|]. left. by repeat eexists.
  - eexists. split; [done|]. split; [done|]. by right.
Qed.

Lemma flush_event_step l s s' evs t p ms :
  step l s = Some (s', evs) -> EvFlush t p ms ∈ evs ->
  exists th pr, threads s !! t = Some th /\ proc s = Some p
    /\ procs s !! p = Some pr /\ ms = stdin_buffer pr
    /\ is_Some (flushing (at_pc th))
    /\ (alive pr = true \/ ms = []).
Proof.
  intros H Hin. revert Hin.
  all_steps H; intros Hin; pick_event Hin; simplify_eq.
  all: try (apply (in_logs _ _ Hlog) in Hin; discriminate Hin).
  all: try (apply (in_logs _ _ (notification_log_logs _)) in Hin; discriminate Hin).
  all: eexists _, _; split_and!; try done;
    try match goal with Hp : at_pc _ = _ |- is_Some _ => by rewrite Hp end.
  all: match goal with
       | Hb : _ || _ = true |- _ =>
           apply orb_true_iff in Hb as [?|Hb]; [by left|right];
           by apply bool_decide_eq_true in Hb
       end.
Qed.

(** C8: registration before the write, and one writer at a time.  A
    thread between [stdin.write] and the end of the block holds
    [_write_lock], so no two threads are there together.  Whatever a
    transition writes is written by the holder of the lock and is the
    notification or a request whose waiter the writing thread has already
    registered.  Whatever a transition flushes into a live subprocess is
    nothing or exactly the one line the flushing thread has written.  And
    every request a subprocess has received, or that waits in a buffer,
    carries the id of a registered waiter. *)
Theorem writes_are_registered_and_exclusive ls s tr :
  run ls init = Some (s, tr) ->
  (forall t th, threads s !! t = Some th -> in_write (at_pc th) = true ->
     write_lock s = Some t)
  /\ (forall t1 t2 th1 th2,
        threads s !! t1 = Some th1 -> threads s !! t2 = Some th2 ->
        in_write (at_pc th1) = true -> in_write (at_pc th2) = true -> t1 = t2)
  /\ (forall l s' evs t p m, step l s = Some (s', evs) -> EvWrite t p m ∈ evs ->
        write_lock s = Some t
        /\ (m = initialized_notification
            \/ exists c i h, m = request c i /\ EvRegister t i h ∈ tr))
  /\ (forall l s' evs t p ms, step l s = Some (s', evs) -> EvFlush t p ms ∈ evs ->
        write_lock s = Some t
        /\ (ms = []
            \/ exists th m, threads s !! t = Some th
                 /\ flushing (at_pc th) = Some m /\ ms = [m]))
  /\ (forall p pr m, procs s !! p = Some pr -> m ∈ stdin pr ++ stdin_buffer pr ->
        m = initialized_notification
        \/ exists t c i h, m = request c i /\ EvRegister t i h ∈ tr).
Proof.
  intros Hrun. pose proof (run_reach _ _ _ Hrun) as Hreach.
  pose proof (reach_invariants _ _ Hreach) as (M & _ & _).
  pose proof (wire_inv_reach _ _ Hreach) as [W1 W2 W3].
  assert (forall t th, threads s !! t = Some th -> in_write (at_pc th) = true ->
            write_lock s = Some t) as MW.
  { intros t th Ht Hw. eapply M; [done|]. by destruct (at_pc th). }
  split_and!.
  - done.
  - intros t1 t2 th1 th2 H1 H2 G1 G2.
    pose proof (MW _ _ H1 G1). pose proof (MW _ _ H2 G2). congruence.
  - intros l s' evs t p m H Hin.
    destruct (write_event_step _ _ _ _ _ _ _ H Hin)
      as (th & Ht & _ & [(c & i & h & Hp & ->)|[Hp ->]]).
    + split; [eapply MW; [done|by rewrite Hp]|]. right. exists c, i, h.
      split; [done|]. eapply W1; [done|by rewrite Hp].
    + split; [eapply MW; [done|by rewrite Hp]|]. by left.
  - intros l s' evs t p ms H Hin.
    destruct (flush_event_step _ _ _ _ _ _ _ H Hin)
      as (th & pr & Ht & Hc & Hpr & -> & [m Hm] & Hal).
    assert (write_lock s = Some t) as Hlk.
    { eapply MW; [done|]. by destruct (at_pc th). }
    split; [done|]. destruct Hal as [Hal|?]; [|by left].
    destruct (W2 _ _ Hc Hpr Hal) as [?|(t1 & th1 & m1 & Hlk1 & Ht1 & Hm1 & ->)];
      [by left|right].
    assert (t1 = t) by congruence. subst t1. by exists th1, m1.
  - intros p pr m Hpr Hin. by eapply W3.
Qed.

(** ** A handshake that is never answered *)

Ltac slot_lookups :=
  rewrite ?list_lookup_middle by done;
  rewrite ?list_lookup_insert_eq by (rewrite ?length_insert, ?length_app; simpl; lia).

Ltac one_step :=
  eapply run_cons;
  [unfold step, thread_step, current_process; cbn; slot_lookups; cbn;
   slot_lookups; cbn; reflexivity
  | |reflexivity].

Lemma silent_handshake_cycle s ks :
  threads s = [Thread TPopen ks] -> write_lock s = None ->
  exists s' tr,
    run (silent_handshake 0) s = Some (s', tr)
    /\ threads s' = [Thread TPopen (KTimeout initialize_call :: ks)]
    /\ write_lock s' = None
    /\ length (procs s') = S (length (procs s))
    /\ count is_spawn tr = 1%nat /\ count is_end tr = 0%nat.
Proof.
  destruct s as [pr lk nid pend stop futs prs rds ths].
  intros Hth Hlk. simpl in Hth, Hlk. subst ths lk. do 2 eexists. split.
  - unfold silent_handshake, restart. cbn [replicate app].
    do 13 one_step.
    eapply run_cons; [unfold step; cbn; slot_lookups; cbn; reflexivity| |reflexivity].
    do 7 one_step. reflexivity.
  - cbn. rewrite ?length_insert, ?length_app. simpl. split_and!; try done. lia.
Qed.

(** C2: a subprocess that never answers [initialize].  Each time the
    deadline of the handshake request elapses, the handler of l.196
    restarts, the restart spawns the next subprocess and sends the next
    handshake request: after [n] deadlines the constructing thread has
    spawned [n] subprocesses, is about to spawn the next one with [n]
    suspended calls of [_send_request] below it, and no error has reached
    its caller. *)
Theorem handshake_timeout_respawns_without_end n :
  exists s tr,
    run (concat (replicate n (silent_handshake 0))) init = Some (s, tr)
    /\ threads s = [Thread TPopen (replicate n (KTimeout initialize_call))]
    /\ length (procs s) = n
    /\ count is_spawn tr = n
    /\ count is_end tr = 0%nat.
Proof.
  assert (exists s tr,
    run (concat (replicate n (silent_handshake 0))) init = Some (s, tr)
    /\ threads s = [Thread TPopen (replicate n (KTimeout initialize_call))]
    /\ write_lock s = None
    /\ length (procs s) = n
    /\ count is_spawn tr = n
    /\ count is_end tr = 0%nat) as (s & tr & H & ? & ? & ? & ? & ?);
    [|by exists s, tr].
  induction n as [|n (s & tr & Hrun & Hth & Hlk & Hlen & Hsp & Hend)].
  - by exists init, [].
  - destruct (silent_handshake_cycle s _ Hth Hlk)
      as (s' & tr' & Hrun' & Hth' & Hlk' & Hlen' & Hsp' & Hend').
    exists s', (tr ++ tr').
    replace (S n) with (n + 1)%nat by lia.
    rewrite replicate_add, concat_app.
    change (concat (replicate 1 (silent_handshake 0))) with (silent_handshake 0 ++ []).
    rewrite app_nil_r.
    split; [by eapply run_app|].
    rewrite !count_app, Hsp, Hend, Hsp', Hend', Hlen', Hlen.
    split_and!; try done; try lia.
    rewrite Hth'. f_equal. f_equal.
    rewrite replicate_add. apply replicate_cons_app.
Qed.

(** ** The claims that the code does not meet *)

(** C3, as the spec states it, fails: two calls are pending, both
    deadlines elapse, and two restarts follow, one by each caller. *)
Lemma two_deadlines_two_restarts :
  exists s tr, run two_deadlines init = Some (s, tr)
    /\ keep (fun e => is_deadline e || is_restart e || is_died e) tr
       = [EvDeadline 1 2; EvDeadline 2 3; EvRestart 1; EvRestart 2]
    /\ count is_restart tr = 2%nat.
Proof. eexists _, _. split; [vm_compute; reflexivity|]. split; reflexivity. Qed.


(** The table is not protected against a registration between the loop
    of a restart and its [clear]: the waiter leaves the table without
    having been failed, and its caller is left to its deadline. *)
Lemma waiter_registered_during_restart_is_dropped :
  exists s tr, run registers_during_restart init = Some (s, tr)
    /\ keep (fun e => is_clear e || is_restart e
                      || match e with EvRegister _ _ _ => true | _ => false end) tr
       = [EvRegister 0 1 0; EvRegister 1 2 1; EvRestart 1; EvRegister 2 3 2;
          EvClear 1]
    /\ pending_requests s = ∅
    /\ futures s !! 2%nat = Some Pending.
Proof.
  eexists _, _. split; [vm_compute; reflexivity|]. split_and!; reflexivity.
Qed.

(** A response handled between the loop of a restart and its [clear]
    finds its waiter in the table, failed: the waiter leaves the table and
    keeps the failure. *)
Lemma response_for_a_failed_waiter :
  exists s tr s', run response_during_restart init = Some (s, tr)
    /\ clearing s = true
    /\ pending_requests s !! 3 = Some 2%nat
    /\ futures s !! 2%nat = Some (Finished (Raised ServerRestarted))
    /\ step (Read 0) s = Some (s', [])
    /\ pending_requests s' !! 3 = None
    /\ futures s' !! 2%nat = Some (Finished (Raised ServerRestarted)).
Proof.
  eexists _, _, _. split; [vm_compute; reflexivity|].
  split_and!; reflexivity.
Qed.


(** The scenario of the spec: the subprocess exits while a call is
    pending, a second call finds it dead and restarts; the first caller
    gets "Server restarted", the second its result. *)
Lemma crash_and_recover :
  exists s tr, run (send_after_exit ++ recover) init = Some (s, tr)
    /\ threads s !! 1%nat = Some (Thread (Ended (Raised ServerRestarted)) [])
    /\ threads s !! 2%nat
       = Some (Thread (Ended (Returned (JObj [("x", JInt 1)]))) [])
    /\ count is_restart tr = 1%nat.
Proof.
  eexists _, _. split; [vm_compute; reflexivity|]. split_and!; reflexivity.
Qed.

(** ** The theorems at concrete runs *)

Lemma ids_increase_across_generations_witness :
  exists s tr, run two_deadlines init = Some (s, tr)
    /\ allocs tr = [1; 2; 3; 4; 5]
    /\ StronglySorted Z.lt (allocs tr).
Proof.
  eexists _, _. split; [vm_compute; reflexivity|]. split; [reflexivity|].
  eapply (ids_increase_across_generations two_deadlines).
  vm_compute; reflexivity.
Defined.

Lemma ids_distinct_within_generation_witness :
  exists s tr, run two_deadlines init = Some (s, tr)
    /\ allocs_in is_spawn 1 tr = [1; 2; 3]
    /\ forall mark g,
         StronglySorted Z.lt (allocs_in mark g tr) /\ NoDup (allocs_in mark g tr).
Proof.
  eexists _, _. split; [vm_compute; reflexivity|]. split; [reflexivity|].
  eapply (ids_distinct_within_generation two_deadlines).
  vm_compute; reflexivity.
Defined.

Lemma stale_response_resolves_no_live_waiter_witness :
  exists s tr, run late_response init = Some (s, tr)
    /\ pending_requests s !! 4 = Some 3%nat
    /\ exists s' evs, step (Read 0) s = Some (s', evs)
         /\ futures s' !! 3%nat = futures s !! 3%nat
         /\ count (resolves 3) evs = 0%nat.
Proof.
  eexists _, _. split; [vm_compute; reflexivity|]. split; [reflexivity|].
  eapply (stale_response_resolves_no_live_waiter late_response _ _ is_clear
            0 2 1 4 3 0 _ (JInt 2)).
  - vm_compute; reflexivity.
  - match goal with
    | |- registered_in _ _ _ _ ?tr =>
        exists 1%nat, (take 12 tr), (drop 13 tr)
    end. split; vm_compute; reflexivity.
  - vm_compute. lia.
  - match goal with
    | |- registered_in _ _ _ _ ?tr =>
        exists 2%nat, (take 32 tr), (drop 33 tr)
    end. split; vm_compute; reflexivity.
  - reflexivity.
  - reflexivity.
  - reflexivity.
Defined.




Lemma every_deadline_begins_its_own_restart_witness :
  exists s tr, run two_deadlines init = Some (s, tr)
    /\ count (deadline_of 1) tr = 1%nat /\ count (deadline_of 2) tr = 1%nat
    /\ forall t, (count (restart_by t) tr + restart_due_of s t
                  = count (deadline_of t) tr + count (died_by t) tr)%nat.
Proof.
  eexists _, _. split; [vm_compute; reflexivity|]. do 2 (split; [reflexivity|]).
  eapply (every_deadline_begins_its_own_restart two_deadlines).
  vm_compute; reflexivity.
Defined.


Lemma writes_are_registered_and_exclusive_witness :
  exists s tr, run (start_ok 0 0 0 1 ++ invoke echo ++ replicate 8 (Run 1)) init
                 = Some (s, tr)
    /\ write_lock s = Some 1%nat
    /\ forall t th, threads s !! t = Some th -> in_write (at_pc th) = true ->
         write_lock s = Some t.
Proof.
  eexists _, _. split; [vm_compute; reflexivity|]. split; [reflexivity|].
  eapply (writes_are_registered_and_exclusive
            (start_ok 0 0 0 1 ++ invoke echo ++ replicate 8 (Run 1))).
  vm_compute; reflexivity.
Defined.

(** * Further properties of the client *)

Lemma registered_event tr t i h :
  EvRegister t i h ∈ tr -> (i, h) ∈ registrations tr.
Proof.
  induction tr as [|e tr IH]; intros Hin; [by apply elem_of_nil in Hin|].
  apply elem_of_cons in Hin as [<-|Hin]; [by left|].
  destruct e; simpl; auto. right. auto.
Qed.

(** Two threads do not wait under the same id. *)
Lemma waiter_unique s tr t1 t2 th1 th2 c1 c2 i h1 h2 :
  reach s tr -> threads s !! t1 = Some th1 -> threads s !! t2 = Some th2 ->
  waiter_of (at_pc th1) = Some (c1, i, h1) ->
  waiter_of (at_pc th2) = Some (c2, i, h2) -> t1 = t2.
Proof.
  intros Hr Ht1 Ht2 Hw1 Hw2.
  pose proof (wire_inv_reach _ _ Hr) as [W1 _ _].
  pose proof (reach_invariants _ _ Hr) as (_ & _ & [_ R2 _ _ _ _ _ _]).
  pose proof (W1 _ _ _ _ _ Ht1 Hw1) as [tr1 [tr2 E1]]%list_elem_of_split.
  pose proof (W1 _ _ _ _ _ Ht2 Hw2) as [tr1' [tr2' E2]]%list_elem_of_split.
  assert (tr1 = tr1') as <-.
  { eapply registration_position; [by rewrite <- E1, <- E2|by rewrite <- E1]. }
  rewrite E1 in E2. apply app_inv_head in E2. by simplify_eq.
Qed.

(** ** The pending table holds no entry of a call that has ended *)

(** The owner of an entry is still its owner after a step that leaves the
    entry in the table. *)
Ltac keep_owner O Hlk :=
  let t1 := fresh "t" in
  let th1 := fresh "th" in
  let c1 := fresh "c" in
  let Ht1 := fresh "Ht" in
  let Hw1 := fresh "Hw" in
  destruct (O _ _ Hlk) as (t1 & th1 & c1 & Ht1 & Hw1);
  first
    [ match goal with
      | Hl : threads ?s !! ?t = Some ?th, Hp : at_pc ?th = _ |- _ =>
          destruct (decide (t1 = t)) as [->|];
          [ assert (th1 = th) by congruence; subst th1;
            rewrite Hp in Hw1; simpl in Hw1; simplify_eq;
            try (eexists t, _, _; split; [by eapply insert_lookup_same|reflexivity])
          | exists t1, th1, c1; split; [by rewrite list_lookup_insert_ne|done] ]
      end
    | exists t1, th1, c1; split; [done|done]
    | exists t1, th1, c1; split; [by apply lookup_app_l_Some|done] ].

(** A call whose future holds a result has no entry any more: an entry
    with a finished future is one that a restart has failed. *)
Ltac returned_keeps O R8 Hlk :=
  let t1 := fresh "t" in
  let th1 := fresh "th" in
  let c1 := fresh "c" in
  let Ht1 := fresh "Ht" in
  let Hw1 := fresh "Hw" in
  destruct (O _ _ Hlk) as (t1 & th1 & c1 & Ht1 & Hw1);
  match goal with
  | Hl : threads ?s !! ?t = Some ?th, Hp : at_pc ?th = _,
    Hf : futures ?s !! _ = Some (Finished (Returned _)) |- _ =>
      destruct (decide (t1 = t)) as [->|];
      [ assert (th1 = th) by congruence; subst th1;
        rewrite Hp in Hw1; simpl in Hw1; simplify_eq;
        by pose proof (R8 _ _ _ Hlk Hf)
      | exists t1, th1, c1; split; [by rewrite list_lookup_insert_ne|done] ]
  end.

Lemma owned_inv_step l s tr s' evs :
  reg_inv s tr -> wire_inv s tr -> owned_inv s -> step l s = Some (s', evs) ->
  owned_inv s'.
Proof.
  intros [R1 R2 R3 R4 R5 R6 R7 R8] [W1 W2 W3] O H.
  all_steps H; intros ?i ?h ?Hlk; sproj.
  all: try (by rewrite lookup_empty in Hlk).
  all: try (apply lookup_delete_Some in Hlk as [Hne Hlk]).
  all: try (solve [keep_owner O Hlk]).
  - apply lookup_insert_Some in Hlk as [[-> <-]|[_ Hlk]].
    + eexists t, _, _. split; [by eapply insert_lookup_same|reflexivity].
    + keep_owner O Hlk.
  - returned_keeps O R8 Hlk.
  - returned_keeps O R8 Hlk.
Qed.

Lemma owned_inv_reach s tr : reach s tr -> owned_inv s.
Proof.
  induction 1 as [|s tr l s' evs Hr IH H].
  - intros i h Hlk. simpl in Hlk. by rewrite lookup_empty in Hlk.
  - eapply owned_inv_step; [..|by apply IH|done].
    + by apply reach_invariants in Hr as (_ & _ & ?).
    + by apply wire_inv_reach.
Qed.

(** X1: every entry of [_pending_requests] is the waiter of exactly one
    thread, which is inside [_send_request] between the registration of
    l.176 and the end of its handlers (l.199, l.206): a call that has
    returned or raised has left no entry behind.  So the table is empty
    whenever no call is in flight. *)
Theorem pending_entries_are_owned ls s tr :
  run ls init = Some (s, tr) ->
  (forall i h, pending_requests s !! i = Some h ->
     exists t th c, threads s !! t = Some th
       /\ waiter_of (at_pc th) = Some (c, i, h)
       /\ forall t' th' c' h', threads s !! t' = Some th' ->
            waiter_of (at_pc th') = Some (c', i, h') -> t' = t)
  /\ ((forall t th, threads s !! t = Some th -> waiter_of (at_pc th) = None) ->
      pending_requests s = ∅).
Proof.
  intros Hrun. pose proof (run_reach _ _ _ Hrun) as Hr.
  pose proof (owned_inv_reach _ _ Hr) as O. split.
  - intros i h Hlk. destruct (O _ _ Hlk) as (t & th & c & Ht & Hw).
    exists t, th, c. split; [done|]. split; [done|].
    intros t' th' c' h' Ht' Hw'. by eapply waiter_unique.
  - intros Hnone. apply map_empty. intros i.
    destruct (pending_requests s !! i) as [h|] eqn:Hlk; [|done].
    destruct (O _ _ Hlk) as (t & th & c & Ht & Hw).
    by rewrite (Hnone _ _ Ht) in Hw.
Qed.

(** ** Where the outcome of a call comes from *)

Lemma answered_inv_step l s tr s' evs :
  reg_inv s tr -> answered_inv s tr -> step l s = Some (s', evs) ->
  answered_inv s' (tr ++ evs).
Proof.
  intros [R1 R2 R3 R4 R5 R6 R7 R8] A H.
  assert (forall h o, futures s !! h = Some (Finished o) ->
    o = Raised ServerRestarted
    \/ exists r i, EvResolve r i h o ∈ tr ++ evs
         /\ (i, h) ∈ registrations tr ++ registrations evs) as A'.
  { intros h o Hf. destruct (A _ _ Hf) as [?|(r & i & ? & ?)]; [by left|right].
    exists r, i. set_solver. }
  clear A. revert A'. unfold answered_inv.
  all_steps H; intros A ?h ?o ?Hf; sproj; rewrite ?registrations_app.
  all: try (by eapply A).
  - apply lookup_snoc_Some in Hf as [[_ Hf]|[_ ?]]; [|done]. by eapply A.
  - destruct (cancel_all_lookup (pending_requests s) (futures s) h)
      as [[E _]|[E _]]; rewrite E in Hf; [|by eapply A].
    destruct (futures s !! h) as [[|o']|] eqn:Hh; simplify_eq/=;
      [by left|by eapply A].
  - destruct (decide (h0 = h)) as [->|Hne].
    + rewrite list_lookup_insert_eq in Hf by (by eapply lookup_lt_Some).
      simplify_eq. right. exists r, k. split; [set_solver|by eapply R6].
    + rewrite list_lookup_insert_ne in Hf by done. by eapply A.
Qed.

Lemma answered_inv_reach s tr : reach s tr -> answered_inv s tr.
Proof.
  induction 1 as [|s tr l s' evs Hr IH H].
  - intros [|h] o Hf; simplify_eq/=.
  - eapply answered_inv_step; [|done..].
    by apply reach_invariants in Hr as (_ & _ & ?).
Qed.

(** A step that shows the resolution of a future is a step of a reader
    that handles a response with the id under which the future is in the
    table. *)
Lemma resolve_event_step l s s' evs r k h o :
  step l s = Some (s', evs) -> EvResolve r k h o ∈ evs ->
  l = Read r
  /\ exists d v, readers s !! r = Some (LHandle (Parsed (JObj d)))
       /\ dict_get "id" d = Some v /\ py_key v = KInt k
       /\ pending_requests s !! k = Some h
       /\ futures s !! h = Some Pending
       /\ o = resolution d.
Proof.
  intros H Hin.
  assert (forall evs', Forall (fun e => is_log e = true) evs' ->
            EvResolve r k h o ∈ evs' -> False) as Hno.
  { intros evs' Hl Hi. by pose proof (in_logs _ _ Hl Hi). }
  destruct l; try solve [step_inv H; pick_event Hin].
  read_inv H.
  1-3: by destruct (Hno _ Hlog Hin).
  apply elem_of_cons in Hin as [Hin|Hin];
    [|by destruct (Hno _ (notification_log_logs _) Hin)].
  simplify_eq. split; [done|]. by exists d, v.
Qed.

(** The same along a schedule: the moment at which the reader handled
    the response. *)
Lemma resolve_event_run ls : forall s0 s tr r k h o,
  run ls s0 = Some (s, tr) -> EvResolve r k h o ∈ tr ->
  exists ls1 ls2 s1 tr1 d v,
    ls = ls1 ++ Read r :: ls2 /\ run ls1 s0 = Some (s1, tr1)
    /\ readers s1 !! r = Some (LHandle (Parsed (JObj d)))
    /\ dict_get "id" d = Some v /\ py_key v = KInt k
    /\ pending_requests s1 !! k = Some h
    /\ futures s1 !! h = Some Pending
    /\ o = resolution d.
Proof.
  induction ls as [|l ls IH]; intros s0 s tr r k h o H Hin; simpl in H.
  - simplify_eq. by apply elem_of_nil in Hin.
  - destruct (step l s0) as [[sa ea]|] eqn:E1; simpl in H; [|done].
    destruct (run ls sa) as [[sb eb]|] eqn:E2; simpl in H; [|done].
    simplify_eq. apply elem_of_app in Hin as [Hin|Hin].
    + destruct (resolve_event_step _ _ _ _ _ _ _ _ E1 Hin)
        as (-> & d & v & ? & ? & ? & ? & ? & ?).
      by exists [], ls, s0, [], d, v.
    + destruct (IH _ _ _ _ _ _ _ E2 Hin)
        as (ls1 & ls2 & s1 & tr1 & d & v & -> & Hrun & ?).
      exists (l :: ls1), ls2, s1, (ea ++ tr1), d, v. split; [done|].
      split; [|done]. simpl. rewrite E1. simpl. by rewrite Hrun.
Qed.

(** X2: responses are routed by id.  When the future of a call is
    finished, it has been failed by the loop of a restart ("Server
    restarted"), or there was a moment at which the reader handled a
    response carrying the id of this call, found the call's waiter under
    that id, and finished the future with exactly what that response
    resolves to.  No call gets the result of a response to another id. *)
Theorem finished_future_of_a_call ls s tr t th c i h o :
  run ls init = Some (s, tr) ->
  threads s !! t = Some th -> waiter_of (at_pc th) = Some (c, i, h) ->
  futures s !! h = Some (Finished o) ->
  o = Raised ServerRestarted
  \/ exists ls1 ls2 s1 tr1 r d v,
       ls = ls1 ++ Read r :: ls2 /\ run ls1 init = Some (s1, tr1)
       /\ readers s1 !! r = Some (LHandle (Parsed (JObj d)))
       /\ dict_get "id" d = Some v /\ py_key v = KInt i
       /\ pending_requests s1 !! i = Some h
       /\ o = resolution d.
Proof.
  intros Hrun Ht Hw Hf. pose proof (run_reach _ _ _ Hrun) as Hreach.
  destruct (answered_inv_reach _ _ Hreach _ _ Hf) as [?|(r & i' & Hin & Hreg)];
    [by left|right].
  pose proof (reach_invariants _ _ Hreach) as (_ & _ & [_ _ R3 _ _ _ _ _]).
  pose proof (wire_inv_reach _ _ Hreach) as [W1 _ _].
  assert (i' = i) as ->.
  { eapply (NoDup_snd_inj _ _ _ _ R3); [done|].
    eapply registered_event, W1; done. }
  destruct (resolve_event_run _ _ _ _ _ _ _ _ Hrun Hin)
    as (ls1 & ls2 & s1 & tr1 & d & v & ? & ? & ? & ? & ? & ? & ? & ?).
  by exists ls1, ls2, s1, tr1, r, d, v.
Qed.

(** ** Where a TimeoutError comes from *)

Lemma resolution_not_timeout d e :
  resolution d = Raised e -> is_timeout_error e = false.
Proof. unfold resolution. repeat case_match; intros; by simplify_eq. Qed.

Lemma to_future_step l s tr s' evs :
  timeout_inv s tr -> step l s = Some (s', evs) ->
  forall h e, futures s' !! h = Some (Finished (Raised e)) ->
    is_timeout_error e = false.
Proof.
  intros [T1 T2 T3 T4 T5] H.
  all_steps H; intros ?h ?e ?Hf; sproj; try (by eapply T1).
  - apply lookup_snoc_Some in Hf as [[_ Hf]|[_ ?]]; [|done]. by eapply T1.
  - destruct (cancel_all_lookup (pending_requests s) (futures s) h)
      as [[E _]|[E _]]; rewrite E in Hf; [|by eapply T1].
    destruct (futures s !! h) as [[|o']|] eqn:Hh; simplify_eq/=;
      [done|by eapply T1].
  - destruct (decide (h0 = h)) as [->|Hne].
    + rewrite list_lookup_insert_eq in Hf by (by eapply lookup_lt_Some).
      simplify_eq. by eapply resolution_not_timeout.
    + rewrite list_lookup_insert_ne in Hf by done. by eapply T1.
Qed.

Lemma to_error_step l s tr s' evs :
  timeout_inv s tr -> step l s = Some (s', evs) ->
  forall t th c i h e, threads s' !! t = Some th ->
    at_pc th = SError c i h e -> is_timeout_error e = false.
Proof.
  intros [T1 T2 T3 T4 T5] H.
  all_steps H; intros ?t ?th ?c ?i ?h ?e ?Hlk ?Hp; split_lookups; simplify_eq;
    try done; try (by eapply T2); try (by eapply T1).
Qed.

Lemma to_handler_step l s tr s' evs :
  timeout_inv s tr -> step l s = Some (s', evs) ->
  forall t th c i h, threads s' !! t = Some th ->
    at_pc th = STimeout c i h -> EvDeadline t i ∈ tr ++ evs.
Proof.
  intros [T1 T2 T3 T4 T5] H.
  all_steps H; intros ?t ?th ?c ?i ?h ?Hlk ?Hp; split_lookups; simplify_eq;
    try done; try (by eapply T3); try (apply elem_of_app; left; by eapply T3).
  set_solver.
Qed.

Lemma to_stack_step l s tr s' evs :
  timeout_inv s tr -> step l s = Some (s', evs) ->
  forall t th c, threads s' !! t = Some th ->
    KTimeout c ∈ stack th -> exists i, EvDeadline t i ∈ tr ++ evs.
Proof.
  intros [T1 T2 T3 T4 T5] H.
  assert (forall t th c, threads s !! t = Some th ->
    KTimeout c ∈ stack th -> exists i, EvDeadline t i ∈ tr ++ evs) as T4'.
  { intros t th c Ht Hin. destruct (T4 _ _ _ Ht Hin) as [i ?]. exists i. set_solver. }
  assert (forall t th c i h, threads s !! t = Some th ->
    at_pc th = STimeout c i h -> EvDeadline t i ∈ tr ++ evs) as T3'.
  { intros t th c i h Ht Hp. pose proof (T3 _ _ _ _ _ Ht Hp). set_solver. }
  clear T3 T4. revert T3' T4'.
  all_steps H; intros T3 T4 ?t ?th ?c ?Hlk ?Hin; split_lookups; simplify_eq;
    try (by eapply T4); try (by apply elem_of_nil in Hin).
  - apply elem_of_cons in Hin as [?|Hin]; [done|]. by eapply T4.
  - apply elem_of_cons in Hin as [?|Hin]; [|by eapply T4].
    eexists. by eapply T3.
  - eapply T4; [done|].
    match goal with E : stack _ = _ |- _ => rewrite E end. by right.
Qed.

Lemma to_raised_step l s tr s' evs :
  timeout_inv s tr -> step l s = Some (s', evs) ->
  forall t m, EvEnd t (Raised (TimeoutError m)) ∈ tr ++ evs ->
    exists i, EvDeadline t i ∈ tr ++ evs.
Proof.
  intros [T1 T2 T3 T4 T5] H t0 m [Hin|Hin]%elem_of_app.
  { destruct (T5 _ _ Hin) as [i ?]. exists i. set_solver. }
  assert (forall evs', Forall (fun e => is_log e = true) evs' ->
            EvEnd t0 (Raised (TimeoutError m)) ∈ evs' -> False) as Hno.
  { intros evs' Hl Hi. by pose proof (in_logs _ _ Hl Hi). }
  revert Hin.
  all_steps H; intros Hin; try (by destruct (Hno _ Hlog Hin)); pick_event Hin;
    simplify_eq.
  - match goal with
    | Hl : threads _ !! _ = Some ?th, Hp : at_pc ?th = SError _ _ _ _ |- _ =>
        by pose proof (T2 _ _ _ _ _ _ Hl Hp)
    end.
  - match goal with
    | Hl : threads _ !! ?t = Some ?th, E : stack ?th = KTimeout ?c :: _ |- _ =>
        destruct (T4 t th c) as [i ?]; [done|rewrite E; by left|exists i; set_solver]
    end.
  - by destruct (Hno _ (notification_log_logs _) Hin).
Qed.

Lemma timeout_inv_reach s tr : reach s tr -> timeout_inv s tr.
Proof.
  induction 1 as [|s tr l s' evs Hr IH H].
  - split.
    + intros [|h] e Hf; simplify_eq/=.
    + intros [|[|t]] th c i h e Ht Hp; simplify_eq/=.
    + intros [|[|t]] th c i h Ht Hp; simplify_eq/=.
    + intros [|[|t]] th c Ht Hin; simplify_eq/=. by apply elem_of_nil in Hin.
    + intros t m Hin. by apply elem_of_nil in Hin.
  - split.
    + by eapply to_future_step.
    + by eapply to_error_step.
    + by eapply to_handler_step.
    + by eapply to_stack_step.
    + by eapply to_raised_step.
Qed.

(** X3: a thread that leaves with TimeoutError has seen the deadline of
    one of its own requests elapse ([future.result] at l.194); and no
    future is ever failed with a TimeoutError, so the TimeoutError of one
    call is never handed to another. *)
Theorem timeout_error_follows_a_deadline ls s tr :
  run ls init = Some (s, tr) ->
  (forall t m, EvEnd t (Raised (TimeoutError m)) ∈ tr ->
     exists i, EvDeadline t i ∈ tr)
  /\ (forall h e, futures s !! h = Some (Finished (Raised e)) ->
        is_timeout_error e = false).
Proof.
  intros Hrun.
  by pose proof (timeout_inv_reach _ _ (run_reach _ _ _ Hrun)) as [T1 _ _ _ T5].
Qed.

(** ** The write lock *)










(** ** From the request to the caller *)

Lemma step_emit p pr ln s :
  procs s !! p = Some pr -> alive pr = true ->
  step (Emit p ln) s
    = Some (set_procs (<[p := with_stdout (stdout pr ++ [ln]) pr]> (procs s)) s, []).
Proof. intros Hp Ha. unfold step. rewrite Hp. simpl. by rewrite Ha. Qed.

Lemma request_id_request c i : request_id (request c i) = JInt i.
Proof. done. Qed.

Lemma run_app_eq ls1 ls2 s s1 tr1 s2 tr2 tr :
  run ls1 s = Some (s1, tr1) -> run ls2 s1 = Some (s2, tr2) ->
  tr = tr1 ++ tr2 -> run (ls1 ++ ls2) s = Some (s2, tr).
Proof. intros H1 H2 ->. by eapply run_app. Qed.

(** [future.result] hands over what the future was finished with. *)
Lemma step_wait_done t th c i h s :
  threads s !! t = Some th -> at_pc th = SWait c i h -> site c = FromCaller ->
  (forall v, futures s !! h = Some (Finished (Returned v)) ->
     step (Run t) s
       = Some (set_threads (<[t := Thread (Ended (Returned v)) []]> (threads s)) s,
               [EvEnd t (Returned v)]))
  /\ (forall e, futures s !! h = Some (Finished (Raised e)) ->
     run [Run t; Run t] s
       = Some (set_threads (<[t := Thread (Ended (Raised e)) []]> (threads s))
                 (set_pending_requests (delete i (pending_requests s)) s),
               [EvLog (LogCallError (method c) e); EvEnd t (Raised e)])).
Proof.
  intros Ht Hp Hs. split.
  - intros v Hf. eapply step_run; [done|]. unfold thread_step. by rewrite Hp, Hf, Hs.
  - intros e Hf.
    eapply run_cons;
      [eapply step_run; [done|]; unfold thread_step; by rewrite Hp, Hf| |reflexivity].
    eapply run_cons;
      [eapply step_run; [by eapply insert_lookup_same|]; reflexivity| |reflexivity].
    simpl. by rewrite list_insert_insert_eq.
Qed.

(** X6: the round trip of a call.  A call waits for its response; the
    subprocess answers the request as it was written (l.178-188) with the
    id it finds in it.  Then the reader finds the waiter of the call under
    that id and the caller gets the result of the response; and for an
    error response it gets the RuntimeError built from the payload, its
    waiter is removed and no restart is begun. *)
Theorem request_response_round_trip s t th c i h p pr r :
  threads s !! t = Some th -> at_pc th = SWait c i h -> site c = FromCaller ->
  pending_requests s !! i = Some h -> futures s !! h = Some Pending ->
  procs s !! p = Some pr -> alive pr = true -> stdout pr = [] ->
  readers s !! r = Some (LRead p) ->
  (forall v, exists s',
     run [Emit p (result_response (request c i) v); Read r; Read r; Run t] s
       = Some (s', [EvResolve r i h (Returned v); EvEnd t (Returned v)])
     /\ pending_requests s' !! i = None
     /\ threads s' !! t = Some (Thread (Ended (Returned v)) []))
  /\ (forall e, exists s',
     run [Emit p (error_response (request c i) e); Read r; Read r; Run t; Run t] s
       = Some (s', [EvResolve r i h (Raised (InnerMCPError e));
                    EvLog (LogCallError (method c) (InnerMCPError e));
                    EvEnd t (Raised (InnerMCPError e))])
     /\ pending_requests s' !! i = None
     /\ threads s' !! t = Some (Thread (Ended (Raised (InnerMCPError e))) [])).
Proof.
  intros Ht Hp Hs Hk Hf Hpr Ha Ho Hr.
  assert (forall d, dict_get "id" d = Some (JInt i) ->
    exists s2, run [Emit p (Parsed (JObj d)); Read r; Read r] s
                 = Some (resolved r d i h s2, [EvResolve r i h (resolution d)])
      /\ threads s2 = threads s /\ is_Some (futures s2 !! h)) as Hread.
  { intros d Hid.
    set (s1 := set_procs (<[p := with_stdout [Parsed (JObj d)] pr]> (procs s)) s).
    set (s2 := set_readers (<[r := LHandle (Parsed (JObj d))]> (readers s1))
                 (set_procs (<[p := with_stdout [] (with_stdout [Parsed (JObj d)] pr)]>
                               (procs s1)) s1)).
    exists s2. split; [|by split; [|exists Pending]].
    eapply run_cons; [by rewrite (step_emit _ _ _ _ Hpr Ha), Ho| |reflexivity].
    eapply run_cons;
      [eapply (step_read_take r p (with_stdout [Parsed (JObj d)] pr)
                 (Parsed (JObj d)) []);
         [done|by eapply insert_lookup_same|done|done]
      | |reflexivity].
    eapply run_cons;
      [eapply (step_read_resolves r d (JInt i) i h s2);
         [by eapply insert_lookup_same|done..]
      |reflexivity|reflexivity]. }
  split.
  - intros v.
    destruct (Hread [("jsonrpc", JStr "2.0"); ("id", JInt i); ("result", v)] eq_refl)
      as (s2 & Hrun & Hth & Hfut).
    set (d := [("jsonrpc", JStr "2.0"); ("id", JInt i); ("result", v)]) in *.
    pose proof (resolved_future r d i h s2 Hfut) as Hf'.
    destruct (step_wait_done t th c i h (resolved r d i h s2)
                (eq_trans (f_equal (.!! t) Hth) Ht) Hp Hs) as [Hret _].
    eexists. split; [|split].
    + change [Emit p (result_response (request c i) v); Read r; Read r; Run t]
        with ([Emit p (result_response (request c i) v); Read r; Read r] ++ [Run t]).
      eapply run_app_eq; [exact Hrun| |reflexivity].
      eapply run_cons; [apply Hret; exact Hf'|reflexivity|reflexivity].
    + simpl. apply lookup_delete_eq.
    + simpl. rewrite Hth. by eapply insert_lookup_same.
  - intros e.
    destruct (Hread [("jsonrpc", JStr "2.0"); ("id", JInt i); ("error", e)] eq_refl)
      as (s2 & Hrun & Hth & Hfut).
    set (d := [("jsonrpc", JStr "2.0"); ("id", JInt i); ("error", e)]) in *.
    pose proof (resolved_future r d i h s2 Hfut) as Hf'.
    destruct (step_wait_done t th c i h (resolved r d i h s2)
                (eq_trans (f_equal (.!! t) Hth) Ht) Hp Hs) as [_ Hraise].
    eexists. split; [|split].
    + change [Emit p (error_response (request c i) e); Read r; Read r; Run t; Run t]
        with ([Emit p (error_response (request c i) e); Read r; Read r]
              ++ [Run t; Run t]).
      eapply run_app_eq; [exact Hrun|apply Hraise; exact Hf'|reflexivity].
    + simpl. apply lookup_delete_eq.
    + simpl. rewrite Hth. by eapply insert_lookup_same.
Qed.

(** ** The handshake *)

Lemma handshaken_mono t tr evs : handshaken t tr -> handshaken t (tr ++ evs).
Proof.
  intros (r & i & h & v & p & ? & ? & ?). exists r, i, h, v, p. set_solver.
Qed.

Lemma notified_mono t tr evs : notified t tr -> notified t (tr ++ evs).
Proof. intros (p & ?). exists p. set_solver. Qed.

Lemma hs_calls_step l s tr s' evs :
  init_inv s tr -> step l s = Some (s', evs) ->
  forall t th, threads s' !! t = Some th ->
    (forall c, call_of (at_pc th) = Some c -> handshake_or_caller c)
    /\ Forall (fun k => handshake_or_caller (kont_call k)) (stack th).
Proof.
  intros [C _ _ _ _ _] H.
  all_steps H; intros ?t ?th ?Hlk; split_lookups; simplify_eq;
    try (by eapply C).
  all: try match goal with
    | Hl : threads _ !! _ = Some ?th, Hp : at_pc ?th = _ |- _ =>
        destruct (C _ _ Hl) as [C1 C2]; rewrite Hp in C1; simpl in C1
    end.
  all: try (split; [intros ?c ?Hc; simplify_eq/=; eauto|]; try done;
            try (constructor; simpl; eauto); done).
  match goal with E : stack _ = _ |- _ => rewrite E in C2 end.
  apply Forall_cons in C2 as [Hc C2]. split; [|done].
  intros c0 E. by simplify_eq/=.
Qed.

Lemma hs_first_step l s tr s' evs :
  init_inv s tr -> step l s = Some (s', evs) ->
  forall th, threads s' !! 0%nat = Some th ->
    (forall c, call_of (at_pc th) = Some c -> site c = FromInitialize)
    /\ Forall (fun k => site (kont_call k) = FromInitialize) (stack th).
Proof.
  intros [_ C _ _ _ _] H.
  assert (forall t0 th, t0 = 0%nat -> threads s !! t0 = Some th ->
    (forall c, call_of (at_pc th) = Some c -> site c = FromInitialize)
    /\ Forall (fun k => site (kont_call k) = FromInitialize) (stack th)) as C'.
  { intros t0 th ->. apply C. }
  clear C. intros th. generalize (eq_refl 0%nat). generalize 0%nat at 1 3.
  intros t0 E0. revert t0 E0 th C'.
  all_steps H; intros ?t0 ?E0 ?th C ?Hlk; split_lookups;
    try (by eapply C).
  all: try match goal with
    | Hl : threads _ !! ?t = Some ?th, Hp : at_pc ?th = _, E : ?t = 0%nat |- _ =>
        destruct (C _ _ E Hl) as [C1 C2]; rewrite Hp in C1; simpl in C1
    end.
  all: try (split; [intros ?c ?Hc; simplify_eq/=; eauto|]; try done;
            try (constructor; simpl; eauto); done).
  - match goal with E : stack _ = _ |- _ => rewrite E in C2 end.
    apply Forall_cons in C2 as [Hc C2]. split; [|done].
    intros c0 E. by simplify_eq/=.
  - exfalso. unfold constructed in *. by destruct (threads s).
Qed.

Lemma hs_written_step l s tr s' evs :
  init_inv s tr -> step l s = Some (s', evs) ->
  forall t th c i, threads s' !! t = Some th ->
    has_written (at_pc th) = Some (c, i) ->
    exists p, EvWrite t p (request c i) ∈ tr ++ evs.
Proof.
  intros [_ _ C _ _ _] H.
  assert (forall t th c i, threads s !! t = Some th ->
    has_written (at_pc th) = Some (c, i) ->
    exists p, EvWrite t p (request c i) ∈ tr ++ evs) as C'.
  { intros t th c i Ht Hw. destruct (C _ _ _ _ Ht Hw) as [p ?]. exists p. set_solver. }
  clear C. revert C'.
  all_steps H; intros C ?t ?th ?c ?i ?Hlk ?Hw; split_lookups; simplify_eq;
    try done; try (by eapply C).
  all: try (eapply C; [eassumption|];
            match goal with Hp : at_pc _ = _ |- _ => by rewrite Hp end).
  simplify_eq/=. eexists. apply elem_of_app. right. by left.
Qed.

Lemma hs_done_step l s tr s' evs :
  reg_inv s tr -> wire_inv s tr -> answered_inv s tr ->
  init_inv s tr -> step l s = Some (s', evs) ->
  forall t th, threads s' !! t = Some th ->
    in_initialize (at_pc th) = true -> handshaken t (tr ++ evs).
Proof.
  intros [_ _ R3 _ _ _ _ _] [W1 _ _] A [C1 _ C3 C _ _] H.
  assert (forall t th, threads s !! t = Some th ->
    in_initialize (at_pc th) = true -> handshaken t (tr ++ evs)) as C'.
  { intros t th Ht Hi. by eapply handshaken_mono, C. }
  clear C. revert C'.
  all_steps H; intros C ?t ?th ?Hlk ?Hi; split_lookups; simplify_eq;
    try done; try (by eapply C).
  all: try (eapply C; [eassumption|];
            match goal with Hp : at_pc _ = _ |- _ => by rewrite Hp end).
  match goal with
  | Hl : threads _ !! ?t = Some ?th, Hp : at_pc ?th = SWait ?c ?i ?h,
    Hs : site ?c = FromInitialize, Hf : futures _ !! ?h = Some _ |- _ =>
      destruct (C1 _ _ Hl) as [Hc _]; rewrite Hp in Hc;
      rewrite (Hc c eq_refl Hs) in *;
      destruct (C3 t th initialize_call i Hl) as [p Hwr]; [by rewrite Hp|];
      assert (EvRegister t i h ∈ tr) as Hreg by (eapply W1; [done|]; by rewrite Hp);
      destruct (A _ _ Hf) as [?|(r & i' & Hres & Hin)]; [done|];
      assert (i' = i) as ->
        by (eapply (NoDup_snd_inj _ _ _ _ R3); [done|]; by eapply registered_event);
      by exists r, i, h, v, p
  end.
Qed.

Lemma hs_notified_step l s tr s' evs :
  init_inv s tr -> step l s = Some (s', evs) ->
  forall t th, threads s' !! t = Some th ->
    at_pc th = IFlush \/ at_pc th = IRelease -> notified t (tr ++ evs).
Proof.
  intros [_ _ _ _ C _] H.
  assert (forall t th, threads s !! t = Some th ->
    at_pc th = IFlush \/ at_pc th = IRelease -> notified t (tr ++ evs)) as C'.
  { intros t th Ht Hi. by eapply notified_mono, C. }
  clear C. revert C'.
  all_steps H; intros C ?t ?th ?Hlk ?Hi; split_lookups; simplify_eq;
    try (by destruct Hi); try (by eapply C).
  all: try (eapply C; [eassumption|];
            match goal with Hp : at_pc _ = _ |- _ => rewrite Hp; by auto end).
  eexists. apply elem_of_app. right. by left.
Qed.

Lemma hs_constructed_step l s tr s' evs :
  init_inv s tr -> step l s = Some (s', evs) ->
  forall th v, threads s' !! 0%nat = Some th ->
    at_pc th = Ended (Returned v) ->
    handshaken 0 (tr ++ evs) /\ notified 0 (tr ++ evs).
Proof.
  intros [_ F _ D N C] H.
  assert (forall t0 th v, t0 = 0%nat -> threads s !! t0 = Some th ->
    at_pc th = Ended (Returned v) ->
    handshaken t0 (tr ++ evs) /\ notified t0 (tr ++ evs)) as C'.
  { intros t0 th v -> Ht Hp. destruct (C _ _ Ht Hp).
    split; [by apply handshaken_mono|by apply notified_mono]. }
  assert (forall t th, threads s !! t = Some th ->
    in_initialize (at_pc th) = true -> handshaken t (tr ++ evs)) as D'.
  { intros t th Ht Hi. by eapply handshaken_mono, D. }
  assert (forall t th, threads s !! t = Some th ->
    at_pc th = IFlush \/ at_pc th = IRelease -> notified t (tr ++ evs)) as N'.
  { intros t th Ht Hi. by eapply notified_mono, N. }
  assert (forall t0 th, t0 = 0%nat -> threads s !! t0 = Some th ->
    (forall c, call_of (at_pc th) = Some c -> site c = FromInitialize)) as F'.
  { intros t0 th -> Ht. by apply F. }
  clear C D N F. intros th v. generalize (eq_refl 0%nat).
  generalize 0%nat at 1 3 4 5. intros t0 E0. revert t0 E0 th v C' D' N' F'.
  all_steps H; intros ?t0 ?E0 ?th ?v C D N F ?Hlk ?Hp; split_lookups; simplify_eq;
    try done; try (by eapply C).
  - match goal with
    | Hl : threads _ !! 0%nat = Some ?th, Hp : at_pc ?th = SWait ?c _ _ |- _ =>
        pose proof (F _ _ eq_refl Hl c) as Hs; rewrite Hp in Hs;
        specialize (Hs eq_refl); congruence
    end.
  - match goal with
    | Hl : threads _ !! 0%nat = Some ?th, Hp : at_pc ?th = IRelease |- _ =>
        split; [eapply D|eapply N]; try exact Hl; rewrite Hp; by auto
    end.
Qed.

Lemma init_inv_reach s tr : reach s tr -> init_inv s tr.
Proof.
  induction 1 as [|s tr l s' evs Hr IH H].
  - split.
    + intros [|[|t]] th Ht; simplify_eq/=. split; [done|constructor].
    + intros th Ht; simplify_eq/=. split; [done|constructor].
    + intros [|[|t]] th c i Ht Hw; simplify_eq/=.
    + intros [|[|t]] th Ht Hi; simplify_eq/=.
    + intros [|[|t]] th Ht [Hi|Hi]; simplify_eq/=.
    + intros th v Ht Hp; simplify_eq/=.
  - split.
    + by eapply hs_calls_step.
    + by eapply hs_first_step.
    + by eapply hs_written_step.
    + eapply hs_done_step; try done.
      * by apply reach_invariants in Hr as (_ & _ & ?).
      * by apply wire_inv_reach.
      * by apply answered_inv_reach.
    + by eapply hs_notified_step.
    + by eapply hs_constructed_step.
Qed.

(** X7: [__init__] returns only after the handshake.  When the
    constructor has returned, its thread has written an [initialize]
    request, the reader has handed it a response with the id of that
    request and a result, and the thread has written the
    [notifications/initialized] message; the same holds for every thread
    that is about to leave [_initialize] inside a restart. *)
Theorem constructor_returns_after_the_handshake ls s tr :
  run ls init = Some (s, tr) ->
  (constructed s = true -> handshaken 0 tr /\ notified 0 tr)
  /\ (forall t th, threads s !! t = Some th -> at_pc th = IRelease ->
        handshaken t tr /\ notified t tr).
Proof.
  intros Hrun. pose proof (init_inv_reach _ _ (run_reach _ _ _ Hrun)) as [_ _ _ D N C].
  split.
  - unfold constructed. intros Hc.
    destruct (threads s !! 0%nat) as [[q ks]|] eqn:E; [|done].
    destruct q as [| | | | | | | | | | | | | | | | | | | | | | | | | |[v|e]]; try done.
    by eapply C.
  - intros t th Ht Hp. split; [eapply D|eapply N]; try eassumption; rewrite Hp; by auto.
Qed.

(** ** How many subprocesses are spawned *)

Ltac spawn_thread :=
  match goal with
  | Hl : threads ?s !! ?t = Some ?th
    |- context [<[?t := _]> (threads ?s) !! ?t1] =>
      destruct (decide (t1 = t)) as [->|];
      [rewrite list_lookup_insert_eq by (by eapply lookup_lt_Some);
       rewrite Hl in *
      |rewrite list_lookup_insert_ne by done]
  end;
  repeat match goal with
  | Hp : at_pc _ = _ |- _ => rewrite Hp in *; clear Hp
  end;
  cbn [spawn_due spawn_by at_pc] in *;
  rewrite ?bool_decide_eq_true_2, ?bool_decide_eq_false_2 by done.

Lemma spawn_inv_step l s tr s' evs :
  spawn_inv s tr -> step l s = Some (s', evs) -> spawn_inv s' (tr ++ evs).
Proof.
  intros C H t0. revert C.
  all_steps H; intros C; specialize (C t0); unfold spawn_due_of in *;
    revert C; generalize (first_spawn t0); intros n C;
    rewrite ?count_app; sproj; cbn [count spawn_by] in *; count_logs_norm.
  all: try lia.
  all: try (spawn_thread; sproj; lia).
  destruct (threads s !! t0) as [th|] eqn:E.
  - by rewrite (lookup_app_l_Some _ _ _ _ E).
  - apply lookup_ge_None in E. rewrite lookup_app_r by done.
    destruct (t0 - length (threads s))%nat as [|k]; simpl; lia.
Qed.

Lemma spawn_inv_reach s tr : reach s tr -> spawn_inv s tr.
Proof.
  induction 1 as [|s tr l s' evs _ IH H].
  - intros [|[|t]]; simpl; unfold spawn_due_of; simpl; lia.
  - by eapply spawn_inv_step.
Qed.

Lemma spawn_count_step l s tr s' evs :
  count is_spawn tr = length (procs s) -> step l s = Some (s', evs) ->
  count is_spawn (tr ++ evs) = length (procs s').
Proof.
  intros C H. revert C.
  all_steps H; intros C; rewrite ?count_app; sproj; cbn [count is_spawn];
    count_logs_norm; rewrite ?length_app, ?length_insert; simpl; lia.
Qed.

Lemma spawn_count_reach s tr : reach s tr -> count is_spawn tr = length (procs s).
Proof.
  induction 1 as [|s tr l s' evs _ IH H]; [done|]. by eapply spawn_count_step.
Qed.

(** X8: subprocesses are spawned only for a reason.  Every [Popen] object
    the client holds was made by a [Popen] of the run, and a thread has
    called [Popen] at most once for each deadline that elapsed in it and
    each dead subprocess it found at l.170, plus once for the thread of
    [__init__]. *)
Theorem spawns_are_bounded_by_failures ls s tr :
  run ls init = Some (s, tr) ->
  count is_spawn tr = length (procs s)
  /\ forall t, (count (spawn_by t) tr
                <= count (deadline_of t) tr + count (died_by t) tr
                   + first_spawn t)%nat.
Proof.
  intros Hrun. pose proof (run_reach _ _ _ Hrun) as Hr.
  split; [by apply spawn_count_reach|]. intros t.
  pose proof (spawn_inv_reach _ _ Hr t). pose proof (count_inv_reach _ _ Hr t). lia.
Qed.

(** ** No request is written twice *)

Lemma written_ids_app tr1 tr2 :
  written_ids (tr1 ++ tr2) = written_ids tr1 ++ written_ids tr2.
Proof.
  induction tr1 as [|e tr1 IH]; [done|].
  destruct e; simpl; rewrite ?IH; try done. by destruct (request_id m).
Qed.

Lemma written_ids_logs evs :
  Forall (fun e => is_log e = true) evs -> written_ids evs = [].
Proof. induction 1 as [|e evs He _ IH]; [done|]. by destruct e. Qed.

Ltac written_norm :=
  rewrite ?written_ids_app; cbn [written_ids];
  try match goal with
  | Hlog : Forall _ ?evs |- _ => rewrite ?(written_ids_logs _ Hlog)
  end;
  rewrite ?(written_ids_logs _ (notification_log_logs _)), ?app_nil_r.

Lemma written_inv_step l s tr s' evs :
  reach s tr -> written_inv s tr -> step l s = Some (s', evs) ->
  written_inv s' (tr ++ evs).
Proof.
  intros Hr [C1 C2 C3] H.
  pose proof (reach_invariants _ _ Hr) as (_ & _ & [R1 R2 R3 R4 R5 R6 R7 R8]).
  pose proof (wire_inv_reach _ _ Hr) as [W1 _ _].
  pose proof (fun t1 t2 th1 th2 c1 c2 i h1 h2 =>
                waiter_unique s tr t1 t2 th1 th2 c1 c2 i h1 h2 Hr) as U.
  split.
  - revert C1. clear C2.
    all_steps H; intros C1 ?i ?Hin; revert Hin; written_norm; intros Hin;
      rewrite ?fmap_app; try (by eapply C1);
      try (apply elem_of_app; left; by eapply C1).
    rewrite request_id_request in Hin.
    apply elem_of_app in Hin as [Hin|Hin%list_elem_of_singleton]; [by eapply C1|].
    subst. 
    match goal with
    | Hl : threads _ !! _ = Some ?th, Hp : at_pc ?th = SWrite _ ?i ?h |- _ =>
        apply (list_elem_of_fmap_2' fst _ (i, h)); [|done];
        eapply registered_event, W1; [exact Hl|]; by rewrite Hp
    end.
  - revert C1 C2. clear C3.
    all_steps H; intros C1 C2 ?t ?th ?c ?i ?h ?Hlk ?Hp; split_lookups; simplify_eq;
      written_norm; try (by destruct Hp); try (by eapply C2).
    all: try (eapply C2; [eassumption|];
              match goal with Hq : at_pc _ = _ |- _ => rewrite Hq; by auto end).
    + destruct Hp as [Hp|Hp]; simplify_eq. intros Hin%C1.
      match goal with
      | Hl : threads _ !! _ = Some ?th, Hq : at_pc ?th = SRegister _ _ |- _ =>
          by destruct (R4 _ _ _ _ Hl Hq) as [_ ?]
      end.
    + destruct Hp as [Hp|Hp]; simplify_eq.
      match goal with
      | Hl : threads _ !! _ = Some ?th, Hq : at_pc ?th = SAcquire _ _ _ |- _ =>
          eapply C2; [exact Hl|]; rewrite Hq; by left
      end.
    + rewrite request_id_request. apply not_elem_of_app. split; [by eapply C2|].
      intros ->%list_elem_of_singleton.
      match goal with
      | Hne : ?t0 <> ?t, Hl : threads _ !! ?t = Some ?th0,
        Hq : at_pc ?th0 = SWrite ?c0 ?i0 ?h0, Hl' : threads _ !! ?t0 = Some ?th' |- _ =>
          apply Hne;
          eapply (U t0 t th' th0 _ c0 i0 _ h0); [done..| |by rewrite Hq];
          by destruct Hp as [-> | ->]
      end.
  - revert C2 C3. clear C1.
    all_steps H; intros C2 C3; written_norm; try done.
    rewrite request_id_request. apply NoDup_app. split; [done|].
    split; [|apply NoDup_singleton].
    intros x Hx ->%list_elem_of_singleton. revert Hx.
    match goal with
    | Hl : threads _ !! _ = Some ?th, Hq : at_pc ?th = SWrite _ _ _ |- _ =>
        eapply C2; [exact Hl|]; rewrite Hq; by right
    end.
Qed.

Lemma written_inv_reach s tr : reach s tr -> written_inv s tr.
Proof.
  induction 1 as [|s tr l s' evs Hr IH H]; [|by eapply written_inv_step].
  split; simpl; [by intros i ?%elem_of_nil| |constructor].
  intros t th c i h Ht Hp ?%elem_of_nil. done.
Qed.

(** X9: a request is written once.  The ids of the requests passed to
    [stdin.write] over the whole life of the client, restarts included,
    are pairwise distinct and were all handed out by [_get_id]: no request
    is sent again after a restart, and no two requests on the wire can be
    answered by the same response. *)
Theorem requests_are_written_once ls s tr :
  run ls init = Some (s, tr) ->
  NoDup (written_ids tr)
  /\ (forall i, i ∈ written_ids tr -> i ∈ allocs tr)
  /\ (forall tr1 tr2 t p c i, tr = tr1 ++ EvWrite t p (request c i) :: tr2 ->
        forall t' p' c', EvWrite t' p' (request c' i) ∉ tr1 ++ tr2).
Proof.
  intros Hrun. pose proof (run_reach _ _ _ Hrun) as Hr.
  pose proof (written_inv_reach _ _ Hr) as [C1 _ C3].
  pose proof (reach_invariants _ _ Hr) as (_ & _ & [R1 _ _ _ _ _ _ _]).
  split; [done|]. split.
  - intros i [[i' h] [-> Hin]]%C1%list_elem_of_fmap. by destruct (R1 _ _ Hin).
  - intros tr1 tr2 t p c i -> t' p' c' Hin.
    rewrite written_ids_app in C3. cbn [written_ids] in C3.
    rewrite request_id_request in C3.
    apply NoDup_app in C3 as (_ & Hd & [Hn _]%NoDup_cons).
    assert (forall tr0, EvWrite t' p' (request c' i) ∈ tr0 -> i ∈ written_ids tr0) as Hw.
    { induction tr0 as [|e tr0 IH]; intros Hi; [by apply elem_of_nil in Hi|].
      apply elem_of_cons in Hi as [<-|Hi].
      - cbn [written_ids]. rewrite request_id_request. by left.
      - destruct e; simpl; auto. destruct (request_id m); auto. right. auto. }
    apply elem_of_app in Hin as [Hin|Hin].
    + eapply Hd; [by apply Hw|]. by left.
    + apply Hn. by apply Hw.
Qed.

(** * Masking *)

Lemma json_nested_ind (P : json -> Prop) :
  P JNull -> (forall b, P (JBool b)) -> (forall n, P (JInt n)) ->
  (forall f, P (JFloat f)) -> (forall s, P (JStr s)) ->
  (forall xs, Forall P xs -> P (JArr xs)) ->
  (forall d, Forall (fun kv => P kv.2) d -> P (JObj d)) ->
  forall v, P v.
Proof.
  intros HN HB HI HF HS HA HO. fix IH 1.
  intros [|b|n|f|s|xs|d];
    [apply HN|apply HB|apply HI|apply HF|apply HS| |].
  - apply HA. induction xs as [|x xs IHxs]; constructor; [apply IH|apply IHxs].
  - apply HO. induction d as [|[k x] d IHd]; constructor; [apply IH|apply IHd].
Qed.

Lemma dict_get_map (f : json -> json) k d :
  dict_get k (map (fun kv => (kv.1, f kv.2)) d) = f <$> dict_get k d.
Proof.
  induction d as [|[k' v] d IH]; [done|]. simpl. rewrite IH.
  destruct (dict_get k d); simpl; [done|]. by case_decide.
Qed.

(** X10: [mask_json] keeps the keys of a dict, in their order, and puts
    under every key the masked value of what was there: no key is added,
    dropped or masked. *)
Theorem mask_json_masks_every_value `{Presidio} d :
  exists d', mask_json (JObj d) = inl (JObj d')
    /\ d'.*1 = d.*1
    /\ forall k, dict_get k d' = mask_value <$> dict_get k d.
Proof.
  eexists. split; [reflexivity|]. split.
  - induction d as [|[k v] d IH]; [done|]. simpl. by f_equal.
  - intros k. apply dict_get_map.
Qed.

Lemma mask_value_skeleton `{Presidio} v : skeleton (mask_value v) = skeleton v.
Proof.
  induction v as [| | | | |xs IH|d IH] using json_nested_ind; try done.
  - simpl. f_equal. induction IH as [|x xs Hx _ IHxs]; [done|]. simpl. by f_equal.
  - simpl. f_equal. induction IH as [|[k x] d Hx _ IHd]; [done|]. simpl in *.
    by rewrite Hx, IHd.
Qed.

Lemma mask_value_strings `{Presidio} v :
  strings (mask_value v) = mask_text <$> strings v.
Proof.
  induction v as [| | | | |xs IH|d IH] using json_nested_ind; try done.
  - simpl. induction IH as [|x xs Hx _ IHxs]; [done|]. simpl.
    by rewrite fmap_app, Hx, IHxs.
  - simpl. induction IH as [|[k x] d Hx _ IHd]; [done|]. simpl in *.
    by rewrite fmap_app, Hx, IHd.
Qed.

(** X11: [mask_value] changes string values and nothing else.  Apart
    from its string values the result is the input (numbers, booleans,
    nulls, keys and nesting are kept), and its string values are those of
    the input in their order, each passed through [mask_text]. *)
Theorem mask_value_changes_string_values_only `{Presidio} v :
  skeleton (mask_value v) = skeleton v
  /\ strings (mask_value v) = mask_text <$> strings v.
Proof. split; [apply mask_value_skeleton|apply mask_value_strings]. Qed.

Lemma mask_text_fails `{Presidio} text :
  analyze text = None \/ (forall rs, anonymize text rs = None) ->
  mask_text text = text.
Proof.
  intros Hf. unfold mask_text. case_decide; [done|].
  destruct (analyze text) as [rs|] eqn:E; [|done].
  destruct Hf as [?|Hf]; [done|]. by rewrite Hf.
Qed.

(** X12: masking fails open.  If the analyzer or the anonymizer raises
    on the string values of the data, the handler of l.134 returns each
    text as it came: [mask_value] gives back the data unmasked and reports
    nothing. *)
Theorem masking_fails_open `{Presidio} v :
  (forall text, text ∈ strings v ->
     analyze text = None \/ (forall rs, anonymize text rs = None)) ->
  mask_value v = v.
Proof.
  induction v as [| | | |s|xs IH|d IH] using json_nested_ind; intros Hf; try done.
  - simpl. f_equal. apply mask_text_fails, Hf. simpl. by left.
  - simpl. f_equal. simpl in Hf.
    induction IH as [|x xs Hx _ IHxs]; [done|]. simpl in *.
    rewrite Hx, IHxs; [done|..]; intros text Hin; apply Hf, elem_of_app; by auto.
  - simpl. f_equal. simpl in Hf.
    induction IH as [|[k x] d Hx _ IHd]; [done|]. simpl in *.
    rewrite Hx, IHd; [done|..]; intros text Hin; apply Hf, elem_of_app; by auto.
Qed.

(** * The tools of the proxy *)

(** X13: the command of the inner server.  An empty command (an
    [INNER_MCP_CMD] of blanks) is an IndexError at import.  Otherwise a
    leading [python] becomes the running interpreter, a command that
    starts with the interpreter has [-u] among its words (inserted after
    the interpreter when it was nowhere), nothing else is changed, and the
    command is a fixed point of the rewriting. *)
Theorem inner_cmd_is_normalised executable w ws :
  INNER_CMD executable [] = None
  /\ exists cmd, INNER_CMD executable (w :: ws) = Some cmd
       /\ INNER_CMD executable cmd = Some cmd
       /\ (head cmd = Some executable -> "-u" ∈ cmd)
       /\ (cmd = (if decide (w = "python") then executable else w) :: ws
           \/ cmd = executable :: "-u" :: ws /\ "-u" ∉ ws).
Proof.
  split; [done|]. unfold INNER_CMD at 1.
  set (w' := if decide (w = "python") then executable else w) in *.
  assert ((if decide (w' = "python") then executable else w') = w') as Hw.
  { subst w'. repeat case_decide; congruence. }
  destruct (decide (w' = executable)) as [E|E];
    [rewrite (bool_decide_eq_true_2 _ E)|rewrite (bool_decide_eq_false_2 _ E)]; simpl.
  - destruct (bool_decide ("-u" ∈ w' :: ws)) eqn:Hu; simpl.
    + apply bool_decide_eq_true in Hu. eexists. split; [done|]. split_and!.
      * unfold INNER_CMD. rewrite Hw.
        rewrite (bool_decide_eq_true_2 _ E).
        by rewrite (bool_decide_eq_true_2 _ Hu).
      * done.
      * by left.
    + apply bool_decide_eq_false in Hu. eexists. split; [done|]. split_and!.
      * unfold INNER_CMD. rewrite Hw.
        rewrite (bool_decide_eq_true_2 _ E).
        rewrite bool_decide_eq_true_2; [done|]. set_solver.
      * intros _. set_solver.
      * right. split; [by rewrite E|]. set_solver.
  - eexists. split; [done|]. split_and!.
    + unfold INNER_CMD. rewrite Hw. by rewrite (bool_decide_eq_false_2 _ E).
    + simpl. intros ?. by simplify_eq.
    + by left.
Qed.

(** X14: [search_index_masked] answers with a dict, never with an
    exception and never with raw data.  Either the answer is the dict
    [{"error": msg}] (no client, the call raised, or the inner result is
    no dict), or the call returned a dict and the answer is that dict with
    every string value passed through [mask_text] and nothing else
    changed. *)
Theorem search_index_masked_answers_with_a_dict `{Presidio} `{PyStr}
    inner_client index query :
  (exists msg, search_index_masked inner_client index query = error_dict msg)
  \/ exists client d,
       inner_client = Some client
       /\ client (call_tool "SearchIndexTool" (search_args index query) None)
          = Returned (JObj d)
       /\ search_index_masked inner_client index query = mask_value (JObj d)
       /\ skeleton (search_index_masked inner_client index query) = skeleton (JObj d)
       /\ strings (search_index_masked inner_client index query)
          = mask_text <$> strings (JObj d).
Proof.
  unfold search_index_masked. destruct inner_client as [client|]; [|left; by eexists].
  destruct (client _) as [raw|e] eqn:E; [|left; by eexists].
  destruct raw; try (left; by eexists).
  right. eexists _, _. split; [done|]. split; [exact E|]. split; [done|].
  split; [apply mask_value_skeleton|apply mask_value_strings].
Qed.

(** ** The further properties at concrete runs *)

Lemma pending_entries_are_owned_witness :
  exists s tr, run call_waits init = Some (s, tr)
    /\ pending_requests s !! 2 = Some 1%nat
    /\ exists t th c, threads s !! t = Some th
         /\ waiter_of (at_pc th) = Some (c, 2, 1%nat).
Proof.
  eexists _, _. split; [vm_compute; reflexivity|]. split; [reflexivity|].
  destruct (proj1 (pending_entries_are_owned call_waits _ _
                     ltac:(vm_compute; reflexivity)) 2 1%nat eq_refl)
    as (t & th & c & Ht & Hw & _).
  by exists t, th, c.
Defined.

Lemma finished_future_of_a_call_witness :
  exists s tr,
    run (response_read (response 2 (JObj [("x", JInt 1)])) ++ [Read 0]) init
      = Some (s, tr)
    /\ (Returned (JObj [("x", JInt 1)]) = Raised ServerRestarted
        \/ exists ls1 ls2 s1 tr1 r d v,
             response_read (response 2 (JObj [("x", JInt 1)])) ++ [Read 0]
               = ls1 ++ Read r :: ls2
             /\ run ls1 init = Some (s1, tr1)
             /\ readers s1 !! r = Some (LHandle (Parsed (JObj d)))
             /\ dict_get "id" d = Some v /\ py_key v = KInt 2
             /\ pending_requests s1 !! 2 = Some 1%nat
             /\ Returned (JObj [("x", JInt 1)]) = resolution d).
Proof.
  eexists _, _. split; [vm_compute; reflexivity|].
  eapply (finished_future_of_a_call
            (response_read (response 2 (JObj [("x", JInt 1)])) ++ [Read 0])
            _ _ 1 _ echo 2 1).
  - vm_compute; reflexivity.
  - reflexivity.
  - reflexivity.
  - reflexivity.
Defined.

Lemma timeout_error_follows_a_deadline_witness :
  exists s tr, run two_deadlines init = Some (s, tr)
    /\ EvEnd 1 (Raised (TimeoutError "tools/call")) ∈ tr
    /\ exists i, EvDeadline 1 i ∈ tr.
Proof.
  eexists _, _. split; [vm_compute; reflexivity|].
  assert (EvEnd 1 (Raised (TimeoutError "tools/call"))
            ∈ snd (default (init, []) (run two_deadlines init))) as Hin.
  { vm_compute. repeat first [by left | right]. }
  split; [exact Hin|].
  exact (proj1 (timeout_error_follows_a_deadline two_deadlines _ _
                  ltac:(vm_compute; reflexivity)) 1%nat "tools/call" Hin).
Defined.



Lemma request_response_round_trip_witness :
  exists s tr, run call_waits init = Some (s, tr)
    /\ exists s',
         run [Emit 0 (result_response (request echo 2) (JStr "hit"));
              Read 0; Read 0; Run 1] s
           = Some (s', [EvResolve 0 2 1 (Returned (JStr "hit"));
                        EvEnd 1 (Returned (JStr "hit"))])
         /\ pending_requests s' !! 2 = None
         /\ threads s' !! 1%nat = Some (Thread (Ended (Returned (JStr "hit"))) []).
Proof.
  eexists _, _. split; [vm_compute; reflexivity|].
  refine (proj1 (request_response_round_trip _ 1 (Thread (SWait echo 2 1) [])
                   echo 2 1 0 (Process true [] _ []) 0 _ _ _ _ _ _ _ _ _)
            (JStr "hit")); reflexivity.
Defined.

Lemma constructor_returns_after_the_handshake_witness :
  exists s tr, run (start_ok 0 0 0 1) init = Some (s, tr)
    /\ constructed s = true /\ handshaken 0 tr /\ notified 0 tr.
Proof.
  eexists _, _. split; [vm_compute; reflexivity|]. split; [reflexivity|].
  exact (proj1 (constructor_returns_after_the_handshake (start_ok 0 0 0 1) _ _
                  ltac:(vm_compute; reflexivity)) eq_refl).
Defined.

Lemma spawns_are_bounded_by_failures_witness :
  exists s tr, run two_deadlines init = Some (s, tr)
    /\ count is_spawn tr = 3%nat /\ length (procs s) = 3%nat
    /\ (count (spawn_by 1) tr
        <= count (deadline_of 1) tr + count (died_by 1) tr + first_spawn 1)%nat.
Proof.
  eexists _, _. split; [vm_compute; reflexivity|]. split; [reflexivity|].
  split; [reflexivity|].
  exact (proj2 (spawns_are_bounded_by_failures two_deadlines _ _
                  ltac:(vm_compute; reflexivity)) 1%nat).
Defined.

Lemma requests_are_written_once_witness :
  exists s tr, run two_deadlines init = Some (s, tr)
    /\ written_ids tr = [1; 2; 3; 4; 5]
    /\ NoDup (written_ids tr).
Proof.
  eexists _, _. split; [vm_compute; reflexivity|]. split; [reflexivity|].
  exact (proj1 (requests_are_written_once two_deadlines _ _
                  ltac:(vm_compute; reflexivity))).
Defined.

Lemma masking_fails_open_witness :
  @mask_value broken_engines
     (JObj [("hits", JArr [JObj [("name", JStr "Ada Lovelace"); ("age", JInt 36)]])])
  = JObj [("hits", JArr [JObj [("name", JStr "Ada Lovelace"); ("age", JInt 36)]])].
Proof.
  apply (@masking_fails_open broken_engines). intros text _. left. reflexivity.
Defined.

(** * Properties of the interactive client *)

Lemma registered_tool_mono st st' key entry :
  servers st ⊆ servers st' -> tools st ⊆ tools st' ->
  registered_tool st key entry -> registered_tool st' key entry.
Proof.
  intros Hs Ht (server & d & f & ? & ? & ? & ? & ?).
  exists server, d, f. split_and!; auto.
Qed.

Lemma load_tools_ok name server_tools : forall st,
  name ∈ servers st -> registry_ok st ->
  registry_ok (load_tools name server_tools st).1
  /\ servers (load_tools name server_tools st).1 = servers st
  /\ tools st `prefix_of` tools (load_tools name server_tools st).1.
Proof.
  induction server_tools as [|tool rest IH]; intros st Hn Hok; simpl; [done|].
  destruct (mcp_tool_to_openai_function tool) as [f|] eqn:Hf; [|done].
  destruct tool as [| | | | | |d]; try done.
  assert (registry_ok (Registry (servers st) (tools st ++ [f]) (tool_map st))) as Hok1.
  { eapply Forall_impl; [exact Hok|]. intros [k e] Hr.
    eapply registered_tool_mono; [| |exact Hr]; simpl; set_solver. }
  destruct (dict_get "name" d) as [key|] eqn:Hk;
    [|split; [done|split; [done|by apply prefix_app_r]]].
  destruct (hashable key);
    [|split; [done|split; [done|by apply prefix_app_r]]].
  edestruct (IH (Registry (servers st) (tools st ++ [f])
                   (tool_map st ++ [(key, JObj [("server", JStr name); ("def", JObj d)])])))
    as (Hok' & Hs' & Ht'); [done| |].
  { apply Forall_app. split; [exact Hok1|]. constructor; [|constructor].
    exists name, d, f. simpl. split_and!; try done. set_solver. }
  split; [done|]. split; [done|].
  etrans; [|exact Ht']. by apply prefix_app_r.
Qed.

Lemma start_server_ok name r st :
  registry_ok st ->
  registry_ok (start_server name r st).1
  /\ servers (start_server name r st).1
     = servers st ++ match r with Started _ => [name] | StartRaised => [] end.
Proof.
  intros Hok. destruct r as [|o]; simpl; [by rewrite app_nil_r|].
  assert (registry_ok (Registry (servers st ++ [name]) (tools st) (tool_map st))) as Hok1.
  { eapply Forall_impl; [exact Hok|]. intros [k e] Hr.
    eapply registered_tool_mono; [| |exact Hr]; simpl; set_solver. }
  destruct o as [v|e]; [|done].
  destruct v as [| | | | | |response]; try done.
  destruct (iterate _) as [server_tools|]; [|done].
  destruct (load_tools_ok name server_tools
              (Registry (servers st ++ [name]) (tools st) (tool_map st)))
    as (? & ? & _); [simpl; set_solver|done|done].
Qed.

Lemma start_all_ok launch items : forall st,
  registry_ok st ->
  registry_ok (foldl (fun st '(name, server_config) =>
                        (start_server name (launch name server_config) st).1)
                     st items)
  /\ servers (foldl (fun st '(name, server_config) =>
                       (start_server name (launch name server_config) st).1)
                    st items)
     = servers st ++ started_servers launch items.
Proof.
  induction items as [|[name cfg] items IH]; intros st Hok; simpl.
  { split; [done|by rewrite app_nil_r]. }
  destruct (start_server_ok name (launch name cfg) st Hok) as [Hok1 Hs1].
  destruct (IH _ Hok1) as [Hok2 Hs2]. split; [done|].
  rewrite Hs2, Hs1, <- app_assoc. f_equal. unfold started_servers. simpl.
  by destruct (launch name cfg).
Qed.

Lemma tool_map_get_Some tool_name tm entry :
  tool_map_get tool_name tm = Some entry -> (JStr tool_name, entry) ∈ tm.
Proof.
  induction tm as [|[k v] tm IH]; [done|]. simpl.
  destruct (tool_map_get tool_name tm) as [w|].
  - intros ?. simplify_eq. right. by apply IH.
  - destruct k; try done. case_decide; [|done]. intros ?. simplify_eq. by left.
Qed.

(** X15: after [start_servers] every tool that [self.tool_map] holds
    under a string names a server that is in [self.servers], so that
    looking up the client of a tool (l.110-111) raises no KeyError; its
    definition is a dict whose name is the key, and its function is in
    [self.tools].  The servers are those whose client was made, in the
    order of the configuration, also when listing their tools failed. *)
Theorem a_tool_in_the_map_has_its_server launch config st :
  start_servers launch config empty_registry = Some st ->
  (exists mcp_servers,
     default (JObj []) (dict_get "mcpServers" config) = JObj mcp_servers
     /\ servers st = started_servers launch (dict_items mcp_servers))
  /\ forall tool_name entry,
       tool_map_get tool_name (tool_map st) = Some entry ->
       exists server d f,
         entry = JObj [("server", JStr server); ("def", JObj d)]
         /\ server ∈ servers st
         /\ dict_get "name" d = Some (JStr tool_name)
         /\ mcp_tool_to_openai_function (JObj d) = Some f
         /\ f ∈ tools st.
Proof.
  unfold start_servers. intros H.
  destruct (default (JObj []) (dict_get "mcpServers" config))
    as [| | | | | |mcp_servers]; try done.
  simplify_eq.
  destruct (start_all_ok launch (dict_items mcp_servers) empty_registry)
    as [Hok Hs]; [constructor|].
  split; [by exists mcp_servers|].
  intros tool_name entry Hget%tool_map_get_Some.
  eapply Forall_forall in Hok; [|exact Hget]. exact Hok.
Qed.

Lemma load_tools_good name good : forall st,
  Forall well_formed_tool good ->
  forall more,
    load_tools name (good ++ more) st
    = load_tools name more (load_tools name good st).1
    /\ tools (load_tools name good st).1
       = tools st ++ omap mcp_tool_to_openai_function good
    /\ length (tool_map (load_tools name good st).1)
       = (length (tool_map st) + length good)%nat.
Proof.
  induction good as [|tool good IH]; intros st Hg more; simpl.
  { by rewrite app_nil_r, Nat.add_0_r. }
  apply Forall_cons in Hg as [(d & key & -> & Hk & Hh) Hg].
  simpl. rewrite Hk. simpl. rewrite Hh.
  edestruct IH as (E1 & E2 & E3); [exact Hg|]. rewrite E1, E2, E3. simpl.
  rewrite <- app_assoc, length_app. simpl. split_and!; [done|done|lia].
Qed.

(** X16: a tool definition that is no dict or has no name ends the
    loading of its server's tools.  The well-formed definitions before it
    are loaded, one function and one entry of the map each; neither it
    nor a definition after it is. *)
Theorem a_malformed_tool_ends_the_loading name good bad rest st :
  Forall well_formed_tool good -> mcp_tool_to_openai_function bad = None ->
  load_tools name (good ++ bad :: rest) st = ((load_tools name good st).1, false)
  /\ tools (load_tools name good st).1
     = tools st ++ omap mcp_tool_to_openai_function good
  /\ length (tool_map (load_tools name good st).1)
     = (length (tool_map st) + length good)%nat.
Proof.
  intros Hg Hb. destruct (load_tools_good name good st Hg (bad :: rest))
    as (-> & E2 & E3).
  split; [|done]. simpl. by rewrite Hb.
Qed.

Lemma a_tool_in_the_map_has_its_server_witness :
  let launch := fun (_ : string) (_ : json) =>
    Started (Returned (JObj [("tools",
      JArr [JObj [("name", JStr "search"); ("description", JStr "Search an index")]])])) in
  let config :=
    [("mcpServers", JObj [("opensearch", JObj [("command", JStr "python")])])] in
  exists st,
    start_servers launch config empty_registry = Some st
    /\ servers st = ["opensearch"]
    /\ forall tool_name entry,
         tool_map_get tool_name (tool_map st) = Some entry ->
         exists server d f,
           entry = JObj [("server", JStr server); ("def", JObj d)]
           /\ server ∈ servers st
           /\ dict_get "name" d = Some (JStr tool_name)
           /\ mcp_tool_to_openai_function (JObj d) = Some f
           /\ f ∈ tools st.
Proof.
  intros launch config. eexists. split; [vm_compute; reflexivity|].
  split; [reflexivity|].
  exact (proj2 (a_tool_in_the_map_has_its_server launch config _ eq_refl)).
Defined.

Lemma a_malformed_tool_ends_the_loading_witness :
  load_tools "opensearch"
    ([JObj [("name", JStr "search")]] ++ JObj [("title", JStr "no name")]
       :: [JObj [("name", JStr "count")]])
    empty_registry
  = ((load_tools "opensearch" [JObj [("name", JStr "search")]] empty_registry).1, false).
Proof.
  refine (proj1 (a_malformed_tool_ends_the_loading "opensearch"
                   [JObj [("name", JStr "search")]] (JObj [("title", JStr "no name")])
                   [JObj [("name", JStr "count")]] empty_registry _ _)).
  - constructor; [|constructor]. eexists _, _. split_and!; reflexivity.
  - reflexivity.
Defined.
